(** * soca: a job queue on a Postgres table and three edge functions

    A shallow embedding of the three Deno edge functions of the repository
    (enqueue, process, status) and of the [jobs] table they share, followed
    by the properties of the job lifecycle: claiming, retry with backoff,
    dead-lettering, the stale-lock reaper, deduplication on submission and
    the status projection.

    Timestamps are milliseconds since the epoch (the value of [Date.now()]);
    the ISO strings the functions exchange with the store are one-to-one
    with them and are not modelled. *)

From Stdlib Require Import ZArith List Ascii String Bool Lia DecimalString.
Import ListNotations.

Local Open Scope string_scope.
Local Open Scope list_scope.
Local Open Scope Z_scope.
Set Warnings "-register-all".

(* ===================================================================== *)
(** * JSON values and JavaScript objects *)
(* ===================================================================== *)

Inductive json : Type :=
| JNull
| JBool (b : bool)
| JNum (n : Z)
| JStr (s : string)
| JArr (items : list json)
| JObj (fields : list (string * json)).

(** JavaScript truthiness, as used by [!query], [!jobId] and [&& job.result]. *)
Definition truthy (v : json) : bool :=
  match v with
  | JNull => false
  | JBool b => b
  | JNum n => negb (n =? 0)
  | JStr s => negb (s =? "")%string
  | JArr _ => true
  | JObj _ => true
  end.

(** [!s] on a value typed [string | null | undefined]. *)
Definition truthy_str (s : option string) : bool :=
  match s with
  | Some s => negb (s =? "")%string
  | None => false
  end.

(** The text of such a value once it is known to be truthy. *)
Definition text (s : option string) : string :=
  match s with Some s => s | None => "" end.

(** Property assignment [o.k = v]: an existing key keeps its position. *)
Fixpoint set_prop (k : string) (v : json) (o : list (string * json))
  : list (string * json) :=
  match o with
  | [] => [(k, v)]
  | (k', v') :: rest =>
      if (k' =? k)%string then (k, v) :: rest else (k', v') :: set_prop k v rest
  end.

Fixpoint get_prop (k : string) (o : list (string * json)) : option json :=
  match o with
  | [] => None
  | (k', v) :: rest => if (k' =? k)%string then Some v else get_prop k rest
  end.

Definition has_prop (k : string) (o : list (string * json)) : bool :=
  match get_prop k o with Some _ => true | None => false end.

(** A timestamp inside a JSON document. *)
Definition JTime (t : Z) : json := JNum t.

Definition json_of_opt {A} (f : A -> json) (o : option A) : json :=
  match o with Some a => f a | None => JNull end.

(* ===================================================================== *)
(** * The jobs table *)
(* ===================================================================== *)

(** [CREATE TYPE job_status AS ENUM (...)] *)
Inductive job_status : Type :=
| pending | processing | completed | failed | dead_letter.

Definition status_eqb (a b : job_status) : bool :=
  match a, b with
  | pending, pending | processing, processing | completed, completed
  | failed, failed | dead_letter, dead_letter => true
  | _, _ => false
  end.

Definition status_name (s : job_status) : string :=
  match s with
  | pending => "pending"
  | processing => "processing"
  | completed => "completed"
  | failed => "failed"
  | dead_letter => "dead_letter"
  end.

(** [.in('status', [...])] *)
Definition status_in (s : job_status) (l : list job_status) : bool :=
  existsb (status_eqb s) l.

(** One row of [CREATE TABLE jobs]. A nullable column is an [option];
    [result] is JSONB, whose SQL NULL reads back as [JNull]. *)
Record job : Type := mkJob {
  id : string;
  user_id : option string;
  idempotency_key : string;
  query : string;
  result : json;
  error_message : option string;
  status : job_status;
  retry_count : Z;
  max_retries : Z;
  next_retry_at : option Z;
  timeout_seconds : Z;
  locked_at : option Z;
  locked_by : option string;
  created_at : Z;
  updated_at : Z;
  completed_at : option Z
}.

Definition table : Type := list job.

(** The object given to [.update({...})]: [None] leaves the column alone,
    [Some v] writes [v] (for a nullable column [Some None] writes NULL). *)
Record patch : Type := mkPatch {
  p_status : option job_status;
  p_result : option json;
  p_error_message : option (option string);
  p_retry_count : option Z;
  p_next_retry_at : option (option Z);
  p_locked_at : option (option Z);
  p_locked_by : option (option string);
  p_completed_at : option (option Z)
}.

Definition write {A} (p : option A) (old : A) : A :=
  match p with Some v => v | None => old end.

(** The row after an UPDATE; [trigger_jobs_updated_at] stamps [updated_at]
    with the store's NOW(). *)
Definition apply_patch (p : patch) (db_now : Z) (j : job) : job :=
  {| id := id j;
     user_id := user_id j;
     idempotency_key := idempotency_key j;
     query := query j;
     result := write (p_result p) (result j);
     error_message := write (p_error_message p) (error_message j);
     status := write (p_status p) (status j);
     retry_count := write (p_retry_count p) (retry_count j);
     max_retries := max_retries j;
     next_retry_at := write (p_next_retry_at p) (next_retry_at j);
     timeout_seconds := timeout_seconds j;
     locked_at := write (p_locked_at p) (locked_at j);
     locked_by := write (p_locked_by p) (locked_by j);
     created_at := created_at j;
     updated_at := db_now;
     completed_at := write (p_completed_at p) (completed_at j) |}.

(** [UPDATE jobs SET ... WHERE cond]: one atomic statement. *)
Definition update_rows (cond : job -> bool) (p : patch) (db_now : Z)
  (t : table) : table :=
  map (fun j => if cond j then apply_patch p db_now j else j) t.

Definition rows_affected (cond : job -> bool) (t : table) : nat :=
  List.length (filter cond t).

(** [.single()]: data only when exactly one row comes back. *)
Definition single {A} (rows : list A) : option A :=
  match rows with
  | [r] => Some r
  | _ => None
  end.

(** [.order('created_at', { ascending: true }).limit(1)]; among rows with
    equal [created_at] the first in scan order is kept. *)
Fixpoint oldest (rows : list job) : option job :=
  match rows with
  | [] => None
  | j :: rest =>
      match oldest rest with
      | None => Some j
      | Some k => if created_at j <=? created_at k then Some j else Some k
      end
  end.

(** [id UUID PRIMARY KEY] and [idempotency_key TEXT UNIQUE]: an INSERT that
    repeats either value is rejected by the store. These two constraints
    are the only refusals of the store that the table functions decide;
    what the column types refuse besides (a [user_id] that is not a UUID,
    text that is not well-formed or holds the character U+0000, an integer
    outside INTEGER, a time outside TIMESTAMPTZ, a key too long for the
    index) is stated by [accepted_row] and [accepted_patch] below, and
    [insert_row] and [update_rows] describe the store on rows and
    statements that satisfy them. *)
Definition violates_unique (j : job) (t : table) : bool :=
  existsb (fun r => (id r =? id j)%string
                    || (idempotency_key r =? idempotency_key j)%string) t.

Definition insert_row (j : job) (t : table) : option table :=
  if violates_unique j t then None else Some (t ++ [j]).

(* ===================================================================== *)
(** * Effects: the store, the clocks, exceptions *)
(* ===================================================================== *)

(** What one running instance of a function sees besides the store: its own
    clock ([Date.now()]), the store's clock (NOW()), the identifiers the
    store draws ([gen_random_uuid()]) and the module constant [WORKER_ID].
    Clock and identifier readings are indexed by a global event counter. *)
Record env : Type := mkEnv {
  js_clock : nat -> Z;
  db_clock : nat -> Z;
  gen_random_uuid : nat -> string;
  WORKER_ID : string
}.

(** The kinds of statement a function sends to the store. *)
Inductive store_call : Type := SELECT | UPDATE | INSERT.

(** The shared state: the table, the event counter, and (as a record of
    what happened, read by no function) the statements sent so far. *)
Record world : Type := mkWorld {
  db : table;
  tick : nat;
  sent : list store_call
}.

Inductive outcome (A : Type) : Type :=
| Done (a : A)
| Thrown (message : string).
Arguments Done {A} a.
Arguments Thrown {A} message.

Definition M (A : Type) : Type := world -> outcome A * world.

Definition ret {A} (a : A) : M A := fun w => (Done a, w).

Definition bind {A B} (m : M A) (k : A -> M B) : M B :=
  fun w =>
    match m w with
    | (Done a, w') => k a w'
    | (Thrown msg, w') => (Thrown msg, w')
    end.

Definition throw {A} (msg : string) : M A := fun w => (Thrown msg, w).

(** [try { m } catch (e) { h(e.message) }] *)
Definition try_catch {A} (m : M A) (h : string -> M A) : M A :=
  fun w =>
    match m w with
    | (Done a, w') => (Done a, w')
    | (Thrown msg, w') => h msg w'
    end.

Declare Scope monad_scope.
Delimit Scope monad_scope with monad.
Notation "x <- m ;; k" := (bind m (fun x => k))
  (at level 61, m at next level, right associativity) : monad_scope.
Notation "m ;;; k" := (bind m (fun _ => k))
  (at level 61, right associativity) : monad_scope.
Local Open Scope monad_scope.

(** [Date.now()] / [new Date()] *)
Definition date_now (e : env) : M Z :=
  fun w =>
    (Done (js_clock e (tick w)),
     {| db := db w; tick := S (tick w); sent := sent w |}).

(** [for (const x of xs) { await body(x) }] *)
Fixpoint for_each {A} (xs : list A) (body : A -> M unit) : M unit :=
  match xs with
  | [] => ret tt
  | x :: rest => body x ;;; for_each rest body
  end.

(** [await supabase.from('jobs').select(...)] with its filters. *)
Definition db_select (cond : job -> bool) : M (list job) :=
  fun w =>
    (Done (filter cond (db w)),
     {| db := db w; tick := tick w; sent := sent w ++ [SELECT] |}).

(** [await supabase.from('jobs').update(p)] with its filters. No row is
    asked back, so the caller learns only whether the statement failed; a
    statement that matches no row succeeds. This is the store on a
    statement whose values it accepts ([accepted_patch]); one it refuses
    would change nothing and report an error, which the handlers, except
    for the lock, do not look at. *)
Definition db_update (e : env) (cond : job -> bool) (p : patch)
  : M (option string) :=
  fun w =>
    (Done None,
     {| db := update_rows cond p (db_clock e (tick w)) (db w);
        tick := S (tick w);
        sent := sent w ++ [UPDATE] |}).

(** [await supabase.from('jobs').insert(row).select('id').single()]: the
    store draws the id and the creation time; the answer is the new row's
    id, or the store's error (whose text here leaves out the name of the
    constraint). This is the store on a row whose values it accepts
    ([accepted_row]). *)
Definition db_insert (e : env) (row : string -> Z -> job)
  : M (string + string) :=
  fun w =>
    let j := row (gen_random_uuid e (tick w)) (db_clock e (tick w)) in
    match insert_row j (db w) with
    | Some t =>
        (Done (inl (id j)),
         {| db := t; tick := S (tick w); sent := sent w ++ [INSERT] |})
    | None =>
        (Done (inr "duplicate key value violates unique constraint"),
         {| db := db w; tick := S (tick w); sent := sent w ++ [INSERT] |})
    end.

(* ===================================================================== *)
(** * HTTP requests and responses *)
(* ===================================================================== *)

Inductive http_method : Type := GET | POST | OPTIONS | OTHER.

Record response : Type := mkResponse {
  http_status : Z;
  body : json
}.

(** [new Response(JSON.stringify({...}), { status, headers })] *)
Definition json_response (st : Z) (fields : list (string * json)) : response :=
  {| http_status := st; body := JObj fields |}.

(** The answer to a CORS preflight: [new Response('ok', ...)]. *)
Definition preflight : response := {| http_status := 200; body := JStr "ok" |}.

(** The outcome of [await req.json()] followed by reading the properties
    the function needs: the promise rejects (no body, malformed JSON) or a
    property is read off [null], both of which throw; or the properties are
    obtained. *)
Inductive parsed (A : Type) : Type :=
| Rejected (message : string)
| Parsed (a : A).
Arguments Rejected {A} message.
Arguments Parsed {A} a.

Definition req_json {A} (b : parsed A) : M A :=
  match b with
  | Rejected msg => throw msg
  | Parsed a => ret a
  end.

Definition has_id (i : string) (j : job) : bool := (id j =? i)%string.

(* ===================================================================== *)
(** * supabase/functions/process/index.ts *)
(* ===================================================================== *)

Module Process.

Definition baseDelayMs : Z := 10 * 1000.

(** [baseDelayMs * Math.pow(2, retryCount)], in whole milliseconds. For the
    counts the functions produce (0 and up) this is the exact value; a
    negative count gives a fraction, which [Date] truncates. *)
Definition delayMs (retryCount : Z) : Z :=
  if 0 <=? retryCount then baseDelayMs * 2 ^ retryCount
  else baseDelayMs / 2 ^ (- retryCount).

(** A [Date] holds a time value of at most 8.64e15 ms in magnitude and is
    an Invalid Date ([None]) beyond. *)
Definition max_time_value : Z := 8640000000000000.

Definition new_Date (t : Z) : option Z :=
  if Z.abs t <=? max_time_value then Some t else None.

(** [d.toISOString()] throws a RangeError on an Invalid Date. *)
Definition toISOString (d : option Z) : M Z :=
  match d with
  | Some t => ret t
  | None => throw "Invalid time value"
  end.

Definition calculateNextRetryTime (e : env) (retryCount : Z) : M (option Z) :=
  now <- date_now e ;;
  ret (new_Date (now + delayMs retryCount)).

(** ** STEP 1: release stuck jobs *)

(** [.select('id, retry_count, max_retries')] *)
Record stuck_row : Type := mkStuck {
  s_id : string;
  s_retry_count : Z;
  s_max_retries : Z
}.

Definition stuck_of (j : job) : stuck_row :=
  {| s_id := id j;
     s_retry_count := retry_count j;
     s_max_retries := max_retries j |}.

(** [.eq('status', 'processing').lt('locked_at', threshold)] *)
Definition is_stuck (threshold : Z) (j : job) : bool :=
  status_eqb (status j) processing
  && match locked_at j with
     | Some t => t <? threshold
     | None => false
     end.

Definition select_stuck_jobs (e : env) : M (list stuck_row) :=
  now <- date_now e ;;
  rows <- db_select (is_stuck (now - 600 * 1000)) ;;
  ret (map stuck_of rows).

Definition timeout_dead_letter (completed : Z) : patch :=
  {| p_status := Some dead_letter;
     p_result := None;
     p_error_message := Some (Some "Job timed out after maximum retries");
     p_retry_count := None;
     p_next_retry_at := None;
     p_locked_at := Some None;
     p_locked_by := Some None;
     p_completed_at := Some (Some completed) |}.

Definition timeout_retry (newRetryCount next : Z) : patch :=
  {| p_status := Some pending;
     p_result := None;
     p_error_message := Some (Some "Job timed out, will retry");
     p_retry_count := Some newRetryCount;
     p_next_retry_at := Some (Some next);
     p_locked_at := Some None;
     p_locked_by := Some None;
     p_completed_at := None |}.

Definition release_stuck_job (e : env) (stuckJob : stuck_row) : M unit :=
  if s_retry_count stuckJob >=? s_max_retries stuckJob then
    completed <- date_now e ;;
    db_update e (has_id (s_id stuckJob)) (timeout_dead_letter completed) ;;;
    ret tt
  else
    next <- calculateNextRetryTime e (s_retry_count stuckJob) ;;
    iso <- toISOString next ;;
    db_update e (has_id (s_id stuckJob))
      (timeout_retry (s_retry_count stuckJob + 1) iso) ;;;
    ret tt.

Definition release_stuck_jobs (e : env) : M unit :=
  stuckJobs <- select_stuck_jobs e ;;
  for_each stuckJobs (release_stuck_job e).

(** ** STEP 2: pick up a pending job and lock it *)

(** [.in('status', ['pending', 'failed'])
     .or('next_retry_at.is.null,next_retry_at.lte.' + now)
     .is('locked_at', null)] *)
Definition eligible (now : Z) (j : job) : bool :=
  status_in (status j) [pending; failed]
  && match next_retry_at j with
     | None => true
     | Some t => t <=? now
     end
  && match locked_at j with
     | None => true
     | Some _ => false
     end.

(** The oldest eligible row; [.limit(1).single()] has no data when there
    is none. The time read here is also the [locked_at] written on
    locking. *)
Definition pick_job (e : env) : M (Z * option job) :=
  now <- date_now e ;;
  rows <- db_select (eligible now) ;;
  ret (now, oldest rows).

Definition lock (now : Z) (worker : string) : patch :=
  {| p_status := Some processing;
     p_result := None;
     p_error_message := None;
     p_retry_count := None;
     p_next_retry_at := None;
     p_locked_at := Some (Some now);
     p_locked_by := Some (Some worker);
     p_completed_at := None |}.

(** [.eq('id', job.id).in('status', ['pending', 'failed'])] *)
Definition lockable (i : string) (j : job) : bool :=
  has_id i j && status_in (status j) [pending; failed].

(** The answer is [lockError]. *)
Definition lock_job (e : env) (now : Z) (j : job) : M (option string) :=
  db_update e (lockable (id j)) (lock now (WORKER_ID e)).

(** ** STEP 3: call the external API *)

(** What the external call does: answers with a body, answers with a
    status that is not ok, or fails ([fetch] or [json()] rejects). *)
Inductive api_reply : Type :=
| ApiOk (apiResult : json)
| ApiNotOk (http_code : Z)
| ApiFault (message : string).

Definition call_api (e : env) (forceFail : bool) (reply : api_reply) : M json :=
  if forceFail then throw "Forced failure for testing retry mechanism"
  else
    timestamp <- date_now e ;;
    match reply with
    | ApiOk apiResult => ret apiResult
    | ApiNotOk code =>
        throw ("API returned status " ++ NilZero.string_of_int (Z.to_int code))%string
    | ApiFault msg => throw msg
    end.

(** ** STEP 4: the job succeeded *)

Definition complete (apiResult : json) (now : Z) : patch :=
  {| p_status := Some completed;
     p_result := Some apiResult;
     p_error_message := None;
     p_retry_count := None;
     p_next_retry_at := None;
     p_locked_at := Some None;
     p_locked_by := Some None;
     p_completed_at := Some (Some now) |}.

Definition job_succeeded (e : env) (j : job) (apiResult : json) : M response :=
  now <- date_now e ;;
  db_update e (has_id (id j)) (complete apiResult now) ;;;
  ret (json_response 200
         [("message", JStr "Job processed successfully");
          ("job_id", JStr (id j));
          ("status", JStr "completed")]).

(** ** STEP 5: the job failed: retry or dead letter *)

Definition fail_dead_letter (message : string) (newRetryCount now : Z) : patch :=
  {| p_status := Some dead_letter;
     p_result := None;
     p_error_message := Some (Some message);
     p_retry_count := Some newRetryCount;
     p_next_retry_at := None;
     p_locked_at := Some None;
     p_locked_by := Some None;
     p_completed_at := Some (Some now) |}.

Definition fail_retry (message : string) (newRetryCount next : Z) : patch :=
  {| p_status := Some failed;
     p_result := None;
     p_error_message := Some (Some message);
     p_retry_count := Some newRetryCount;
     p_next_retry_at := Some (Some next);
     p_locked_at := Some None;
     p_locked_by := Some None;
     p_completed_at := None |}.

Definition job_failed (e : env) (j : job) (message : string) : M response :=
  let newRetryCount := retry_count j + 1 in
  if newRetryCount >=? max_retries j then
    now <- date_now e ;;
    db_update e (has_id (id j)) (fail_dead_letter message newRetryCount now) ;;;
    ret (json_response 200
           [("message", JStr "Job failed permanently, moved to dead letter queue");
            ("job_id", JStr (id j));
            ("status", JStr "dead_letter");
            ("attempts", JNum newRetryCount)])
  else
    nextRetryAt <- calculateNextRetryTime e newRetryCount ;;
    iso <- toISOString nextRetryAt ;;
    db_update e (has_id (id j)) (fail_retry message newRetryCount iso) ;;;
    ret (json_response 200
           [("message", JStr "Job failed, retry scheduled");
            ("job_id", JStr (id j));
            ("status", JStr "failed");
            ("retry_count", JNum newRetryCount);
            ("next_retry_at", JTime iso)]).

(** STEPs 3 to 5 on the job as it was read when picked. *)
Definition run_job (e : env) (forceFail : bool) (reply : api_reply) (j : job)
  : M response :=
  try_catch
    (apiResult <- call_api e forceFail reply ;;
     job_succeeded e j apiResult)
    (fun message => job_failed e j message).

Definition internal_error (details : string) : response :=
  json_response 500
    [("error", JStr "Internal server error"); ("details", JStr details)].

Definition no_pending_jobs : response :=
  json_response 200 [("message", JStr "No pending jobs to process")].

Definition failed_to_lock : response :=
  json_response 200
    [("message", JStr "Failed to lock job, another worker may have claimed it")].

(** STEPs 1 and 2: everything the handler does before the external call.
    The answer is an early response, or the job as it was read when picked.
    A worker that dies during the external call has run exactly this. *)
Definition claim (e : env) : M (response + job) :=
  release_stuck_jobs e ;;;
  picked <- pick_job e ;;
  match snd picked with
  | None => ret (inl no_pending_jobs)
  | Some j =>
      lockError <- lock_job e (fst picked) j ;;
      match lockError with
      | Some _ => ret (inl failed_to_lock)
      | None => ret (inr j)
      end
  end.

(** The handler given to [Deno.serve]. [forceFail] is
    [body.force_fail === true] (false when the request has no usable body);
    [reply] is what the external API does if it is called. *)
Definition handler (e : env) (method : http_method) (forceFail : bool)
  (reply : api_reply) : M response :=
  match method with
  | OPTIONS => ret preflight
  | _ =>
      try_catch
        (claimed <- claim e ;;
         match claimed with
         | inl early => ret early
         | inr j => run_job e forceFail reply j
         end)
        (fun details => ret (internal_error details))
  end.

End Process.

(* ===================================================================== *)
(** * supabase/functions/enqueue/index.ts *)
(* ===================================================================== *)

Module Enqueue.

(** [const { query, user_id } = await req.json()]; an absent or null
    property is [None]. [user_id] is the text of a UUID. *)
Record submission : Type := mkSubmission {
  sub_query : option string;
  sub_user_id : option string
}.

(** [user_id ? `${user_id}:${query}` : `anonymous:${query}`] *)
Definition idempotencyKey (s : submission) : string :=
  (if truthy_str (sub_user_id s)
   then text (sub_user_id s) ++ ":" ++ text (sub_query s)
   else "anonymous:" ++ text (sub_query s))%string.

(** [.eq('idempotency_key', key).in('status', ['pending', 'processing'])] *)
Definition active_with_key (key : string) (j : job) : bool :=
  (idempotency_key j =? key)%string
  && status_in (status j) [pending; processing].

(** The row of [.insert({...})]; the columns it leaves out take their
    defaults: a drawn id, NOW() for both timestamps, NULL elsewhere. *)
Definition new_job (s : submission) (uuid : string) (now : Z) : job :=
  {| id := uuid;
     user_id := if truthy_str (sub_user_id s) then sub_user_id s else None;
     idempotency_key := idempotencyKey s;
     query := text (sub_query s);
     result := JNull;
     error_message := None;
     status := pending;
     retry_count := 0;
     max_retries := 3;
     next_retry_at := None;
     timeout_seconds := 600;
     locked_at := None;
     locked_by := None;
     created_at := now;
     updated_at := now;
     completed_at := None |}.

(** The handler given to [Deno.serve]. *)
Definition handler (e : env) (method : http_method)
  (request : parsed submission) : M response :=
  match method with
  | OPTIONS => ret preflight
  | _ =>
      try_catch
        (s <- req_json request ;;
         if negb (truthy_str (sub_query s)) then
           ret (json_response 400 [("error", JStr "Query is required")])
         else
           rows <- db_select (active_with_key (idempotencyKey s)) ;;
           match single rows with
           | Some existingJob =>
               ret (json_response 200
                      [("job_id", JStr (id existingJob));
                       ("message", JStr "Job already exists");
                       ("status", JStr (status_name (status existingJob)))])
           | None =>
               inserted <- db_insert e (new_job s) ;;
               match inserted with
               | inr details =>
                   ret (json_response 500
                          [("error", JStr "Failed to create job");
                           ("details", JStr details)])
               | inl newId =>
                   ret (json_response 201
                          [("job_id", JStr newId);
                           ("message", JStr "Job created successfully");
                           ("status", JStr "pending")])
               end
           end)
        (fun details =>
           ret (json_response 500
                  [("error", JStr "Internal server error");
                   ("details", JStr details)]))
  end.

End Enqueue.

(* ===================================================================== *)
(** * supabase/functions/status/index.ts *)
(* ===================================================================== *)

Module Status.

(** A request: its method, the [job_id] query parameter of its URL
    ([searchParams.get], null when absent) and, for a request with a body,
    what [body.job_id] yields. *)
Record request : Type := mkRequest {
  method : http_method;
  url_job_id : option string;
  body_job_id : parsed (option string)
}.

(** The [response] object, built up property by property. *)
Definition project (j : job) : list (string * json) :=
  let response :=
    [("job_id", JStr (id j));
     ("status", JStr (status_name (status j)));
     ("query", JStr (query j));
     ("created_at", JTime (created_at j));
     ("updated_at", JTime (updated_at j))] in
  let response :=
    if status_eqb (status j) completed && truthy (result j) then
      set_prop "completed_at" (json_of_opt JTime (completed_at j))
        (set_prop "result" (result j) response)
    else response in
  let response :=
    if status_eqb (status j) failed || status_eqb (status j) dead_letter then
      set_prop "max_retries" (JNum (max_retries j))
        (set_prop "retry_count" (JNum (retry_count j))
           (set_prop "error_message" (json_of_opt JStr (error_message j))
              response))
    else response in
  let response :=
    if status_eqb (status j) pending && (retry_count j >? 0) then
      set_prop "max_retries" (JNum (max_retries j))
        (set_prop "retry_count" (JNum (retry_count j)) response)
    else response in
  response.

Definition job_id_required : response :=
  json_response 400 [("error", JStr "job_id is required")].

Definition job_not_found : response :=
  json_response 404 [("error", JStr "Job not found")].

(** The handler given to [Deno.serve]. *)
Definition handler (r : request) : M response :=
  match method r with
  | OPTIONS => ret preflight
  | m =>
      try_catch
        (jobId <- match m with
                  | GET => ret (url_job_id r)
                  | _ => req_json (body_job_id r)
                  end ;;
         if negb (truthy_str jobId) then
           ret job_id_required
         else
           rows <- db_select (has_id (text jobId)) ;;
           match single rows with
           | None => ret job_not_found
           | Some j => ret (json_response 200 (project j))
           end)
        (fun _ => ret (json_response 500 [("error", JStr "Internal server error")]))
  end.

End Status.

(* ===================================================================== *)
(** * The store seen as a transition system *)
(* ===================================================================== *)

(** Every UPDATE the three functions send, with its filter. Rows change
    only through these statements and through the INSERT of enqueue,
    whichever way the requests of concurrent workers interleave and
    wherever a worker stops. *)
Inductive sends : (job -> bool) -> patch -> Prop :=
| sends_timeout_dead_letter i completed :
    sends (has_id i) (Process.timeout_dead_letter completed)
| sends_timeout_retry i newRetryCount next :
    sends (has_id i) (Process.timeout_retry newRetryCount next)
| sends_lock i now worker :
    sends (Process.lockable i) (Process.lock now worker)
| sends_complete i apiResult now :
    sends (has_id i) (Process.complete apiResult now)
| sends_fail_dead_letter i message newRetryCount now :
    sends (has_id i) (Process.fail_dead_letter message newRetryCount now)
| sends_fail_retry i message newRetryCount next :
    sends (has_id i) (Process.fail_retry message newRetryCount next).

Inductive step : table -> table -> Prop :=
| step_insert s uuid now t t' :
    insert_row (Enqueue.new_job s uuid now) t = Some t' ->
    step t t'
| step_update cond p db_now t :
    sends cond p ->
    step t (update_rows cond p db_now t).

Inductive reachable : table -> Prop :=
| reachable_empty : reachable []
| reachable_step t t' : reachable t -> step t t' -> reachable t'.

(** The table before and after one request is served: by enqueue, by
    process, by process with the worker dying during the external call, or
    by status. *)
Inductive serves : table -> table -> Prop :=
| serves_enqueue e m request w :
    serves (db w) (db (snd (Enqueue.handler e m request w)))
| serves_process e m forceFail reply w :
    serves (db w) (db (snd (Process.handler e m forceFail reply w)))
| serves_claim e w :
    serves (db w) (db (snd (Process.claim e w)))
| serves_status r w :
    serves (db w) (db (snd (Status.handler r w))).

(** A computation whose effect on the table is a sequence of such
    statements. *)
Definition keeps_reachable {A} (m : M A) : Prop :=
  forall w, reachable (db w) -> reachable (db (snd (m w))).

(** The world after one reading of the clock and one UPDATE. *)
Definition after_update (e : env) (w : world) (cond : job -> bool) (p : patch)
  : world :=
  {| db := update_rows cond p (db_clock e (S (tick w))) (db w);
     tick := S (S (tick w));
     sent := sent w ++ [UPDATE] |}.

Definition is_set {A} (o : option A) : Prop := o <> None.

(** The lock fields and the status of a row agree. *)
Definition lock_consistent (j : job) : Prop :=
  (is_set (locked_at j) <-> is_set (locked_by j))
  /\ (is_set (locked_at j) <-> status j = processing).

(** A status request that carries the job id [i], in its URL (GET) or in
    its body (POST). *)
Definition asks_for (r : Status.request) (i : string) : Prop :=
  (Status.method r = GET /\ Status.url_job_id r = Some i)
  \/ (Status.method r = POST /\ Status.body_job_id r = Parsed (Some i)).

(** A status request that carries no job id. *)
Definition asks_for_nothing (r : Status.request) : Prop :=
  (Status.method r = GET /\ Status.url_job_id r = None)
  \/ (Status.method r = POST /\ Status.body_job_id r = Parsed None).

(** The retry counters are part of the view of a job. *)
Definition shows_retries (j : job) : Prop :=
  status j = failed \/ status j = dead_letter
  \/ (status j = pending /\ retry_count j > 0).

Definition failed_or_dead (j : job) : Prop :=
  status j = failed \/ status j = dead_letter.

(** A statement writes the status and both lock fields together, the lock
    fields being set exactly when the status written is [processing]. *)
Definition writes_lock_consistently (p : patch) : Prop :=
  exists s la lb,
    p_status p = Some s /\ p_locked_at p = Some la /\ p_locked_by p = Some lb
    /\ (is_set la <-> s = processing) /\ (is_set lb <-> s = processing).

(* ===================================================================== *)
(** * Concrete runs *)
(* ===================================================================== *)

Module Scenario.

Definition start : world := {| db := []; tick := 0; sent := [] |}.

Definition uuid_of (n : nat) : string :=
  ("job-" ++ NilZero.string_of_uint (Nat.to_uint n))%string.

(** A worker whose clock and whose store's clock read [clock]. *)
Definition worker (name : string) (clock : nat -> Z) : env :=
  {| js_clock := clock;
     db_clock := clock;
     gen_random_uuid := uuid_of;
     WORKER_ID := name |}.

(** 400 seconds pass between two events. *)
Definition slow_clock (n : nat) : Z := 400000 * Z.of_nat n.

(** One millisecond passes between two events. *)
Definition fast_clock (n : nat) : Z := 1000 + Z.of_nat n.

(** One millisecond between events, except that 700 seconds pass after
    the fourth. *)
Definition nap_clock (n : nat) : Z :=
  if (n <? 4)%nat then Z.of_nat n else 700000 + Z.of_nat n.

Definition weather : parsed Enqueue.submission :=
  Parsed {| Enqueue.sub_query := Some "weather in Tokyo";
            Enqueue.sub_user_id := None |}.

Definition a_result : json := JObj [("data", JStr "sunny")].

(** The table after a computation, and its answer. *)
Definition table_after {A} (m : M A) : table := db (snd (m start)).
Definition answer {A} (m : M A) : outcome A := fst (m start).

(** A job is submitted; three workers in turn claim it and die during the
    external call, each one first releasing the lock the one before left to
    time out; a fourth does the same and has its call fail. *)
Definition three_timeouts_then_failure : M response :=
  let e := worker "w" slow_clock in
  Enqueue.handler e POST weather ;;;
  Process.claim e ;;;
  Process.claim e ;;;
  Process.claim e ;;;
  Process.handler e POST true (Process.ApiOk a_result).

(** The same up to the moment the fourth worker has released the stuck
    job and not yet picked one. *)
Definition third_timeout_released : M unit :=
  let e := worker "w" slow_clock in
  Enqueue.handler e POST weather ;;;
  Process.claim e ;;;
  Process.claim e ;;;
  Process.claim e ;;;
  Process.release_stuck_jobs e.

(** A job is submitted and claimed by a worker that dies; 700 seconds
    later another request to process releases it. *)
Definition timeout_then_release : M response :=
  let e := worker "w" nap_clock in
  Enqueue.handler e POST weather ;;;
  Process.claim e ;;;
  Process.handler e POST false (Process.ApiOk a_result).

(** Two workers race for the one eligible job: both pick it before either
    locks it. The answer lists the rows matched by each lock statement,
    the second worker's [lockError] and both responses. *)
Definition rows_matched (cond : job -> bool) : M nat :=
  fun w => (Done (rows_affected cond (db w)), w).

Definition race : M (nat * nat * option string * response * response) :=
  let w1 := worker "worker-1" fast_clock in
  let w2 := worker "worker-2" fast_clock in
  Enqueue.handler w1 POST weather ;;;
  Process.release_stuck_jobs w1 ;;;
  picked1 <- Process.pick_job w1 ;;
  Process.release_stuck_jobs w2 ;;;
  picked2 <- Process.pick_job w2 ;;
  match snd picked1, snd picked2 with
  | Some j1, Some j2 =>
      n1 <- rows_matched (Process.lockable (id j1)) ;;
      Process.lock_job w1 (fst picked1) j1 ;;;
      n2 <- rows_matched (Process.lockable (id j2)) ;;
      lockError2 <- Process.lock_job w2 (fst picked2) j2 ;;
      r1 <- Process.run_job w1 false (Process.ApiOk a_result) j1 ;;
      r2 <- Process.run_job w2 false (Process.ApiOk a_result) j2 ;;
      ret (n1, n2, lockError2, r1, r2)
  | _, _ => throw "no job picked"
  end.

(** The first row of a table. *)
Definition first_row (t : table) : job :=
  hd (Enqueue.new_job
        {| Enqueue.sub_query := None; Enqueue.sub_user_id := None |} "" 0) t.

(** A row in [processing], locked at time [locked] by a worker that has
    died since. *)
Definition locked_job (i : string) (retries limit timeout locked : Z) : job :=
  {| id := i;
     user_id := None;
     idempotency_key := ("anonymous:" ++ i)%string;
     query := i;
     result := JNull;
     error_message := None;
     status := processing;
     retry_count := retries;
     max_retries := limit;
     next_retry_at := None;
     timeout_seconds := timeout;
     locked_at := Some locked;
     locked_by := Some "gone";
     created_at := 0;
     updated_at := locked;
     completed_at := None |}.

(** A clock that reads 1 000 000 ms at the first event. *)
Definition late_clock (n : nat) : Z := 1000000 + Z.of_nat n.

(** Job A allows its worker 60 seconds and was locked 120 seconds before
    the clock's first reading; job B allows 3600 seconds and was locked
    700 seconds before it. *)
Definition job_A : job := locked_job "A" 0 3 60 880000.
Definition job_B : job := locked_job "B" 0 3 3600 300000.

Definition two_locked_jobs : world :=
  {| db := [job_A; job_B]; tick := 0; sent := [] |}.

Definition job_D : job := locked_job "D" 1 3 600 300000.


Definition retryable_job_locked : world :=
  {| db := [job_D]; tick := 0; sent := [] |}.

(** GET /status?job_id=i *)
Definition get_status (i : string) : Status.request :=
  {| Status.method := GET;
     Status.url_job_id := Some i;
     Status.body_job_id := Rejected "Unexpected end of JSON input" |}.

(** The world once a job has been submitted and processed to completion. *)
Definition one_completed_job : world :=
  let e := worker "w" fast_clock in
  snd ((Enqueue.handler e POST weather ;;;
        Process.handler e POST false (Process.ApiOk a_result)) start).

(** The world once a job has been submitted. *)
Definition one_submitted_job : world :=
  snd (Enqueue.handler (worker "w" fast_clock) POST weather start).

(** POST /status with no body at all. *)
Definition post_status_without_body : Status.request :=
  {| Status.method := POST;
     Status.url_job_id := None;
     Status.body_job_id := Rejected "Unexpected end of JSON input" |}.

(** POST /status with a JSON object that has no [job_id]. *)
Definition post_status_without_id : Status.request :=
  {| Status.method := POST;
     Status.url_job_id := None;
     Status.body_job_id := Parsed None |}.

(** A job is submitted and processed, the external API answering with the
    JSON document [null]; then its status is asked. *)
Definition null_result_then_status : M response :=
  let e := worker "w" fast_clock in
  Enqueue.handler e POST weather ;;;
  Process.handler e POST false (Process.ApiOk JNull) ;;;
  Status.handler (get_status "job-0").

(** A job is submitted, processed to completion, and submitted again. *)
Definition resubmit_after_completion : M response :=
  let e := worker "w" fast_clock in
  Enqueue.handler e POST weather ;;;
  Process.handler e POST false (Process.ApiOk a_result) ;;;
  Enqueue.handler e POST weather.

End Scenario.

(* ===================================================================== *)
(** * What the store accepts *)
(* ===================================================================== *)

(** A byte whose value lies between [lo] and [hi]. *)
Definition between (lo hi : N) (c : ascii) : bool :=
  ((lo <=? N_of_ascii c) && (N_of_ascii c <=? hi))%N.

Definition continuation (c : ascii) : bool := between 128 191 c.

(** Text a TEXT or JSONB value can hold: the bytes are well-formed UTF-8
    (no overlong form, no surrogate, nothing beyond U+10FFFF) and the
    character U+0000 does not occur. *)
Fixpoint storable_text (s : string) : bool :=
  match s with
  | EmptyString => true
  | String a s1 =>
      if between 1 127 a then storable_text s1
      else
        match s1 with
        | EmptyString => false
        | String b s2 =>
            if between 194 223 a then continuation b && storable_text s2
            else
              match s2 with
              | EmptyString => false
              | String c s3 =>
                  if between 224 239 a then
                    (if between 224 224 a then between 160 191 b
                     else if between 237 237 a then between 128 159 b
                     else continuation b)
                    && continuation c && storable_text s3
                  else
                    match s3 with
                    | EmptyString => false
                    | String d s4 =>
                        between 240 244 a
                        && (if between 240 240 a then between 144 191 b
                            else if between 244 244 a then between 128 143 b
                            else continuation b)
                        && continuation c && continuation d
                        && storable_text s4
                    end
              end
        end
  end.

(** An entry of the index that [UNIQUE] puts on [idempotency_key] is
    limited in size; a key of at most this many bytes always fits. *)
Definition indexable (s : string) : Prop := (String.length s <= 2000)%nat.

Fixpoint storable_json (v : json) : bool :=
  match v with
  | JNull => true
  | JBool _ => true
  | JNum _ => true
  | JStr s => storable_text s
  | JArr items => forallb storable_json items
  | JObj fields =>
      forallb (fun field =>
                 match field with
                 | (k, x) => storable_text k && storable_json x
                 end) fields
  end.

(** The range of an INTEGER column. *)
Definition int4 (n : Z) : Prop := - 2 ^ 31 <= n < 2 ^ 31.

(** A time the functions can hand to a TIMESTAMPTZ column: from the epoch
    to the end of the year 9999, the range in which [toISOString] writes a
    four-digit year. *)
Definition storable_time (t : Z) : Prop := 0 <= t < 253402300800000.

Definition is_hex (c : ascii) : bool :=
  let n := nat_of_ascii c in
  ((48 <=? n) && (n <=? 57) || (97 <=? n) && (n <=? 102)
   || (65 <=? n) && (n <=? 70))%nat.

(** The usual spelling of a UUID: 8-4-4-4-12 hexadecimal digits. *)
Fixpoint uuid_shape (pos : nat) (s : string) : bool :=
  match s with
  | EmptyString => (pos =? 36)%nat
  | String c rest =>
      (if ((pos =? 8) || (pos =? 13) || (pos =? 18) || (pos =? 23))%nat
       then Ascii.eqb c "-"%char
       else is_hex c)
      && uuid_shape (S pos) rest
  end.

Definition is_uuid (s : string) : bool := uuid_shape 0 s.

(** A row whose values fit the columns of [CREATE TABLE jobs]. *)
Definition accepted_row (j : job) : Prop :=
  match user_id j with Some u => is_uuid u = true | None => True end
  /\ storable_text (idempotency_key j) = true
  /\ indexable (idempotency_key j)
  /\ storable_text (query j) = true
  /\ storable_json (result j) = true
  /\ int4 (retry_count j) /\ int4 (max_retries j) /\ int4 (timeout_seconds j).

(** An UPDATE whose values fit the columns it writes. *)
Definition accepted_patch (p : patch) : Prop :=
  (forall r, p_result p = Some r -> storable_json r = true)
  /\ (forall m, p_error_message p = Some (Some m) -> storable_text m = true)
  /\ (forall n, p_retry_count p = Some n -> int4 n)
  /\ (forall t, p_next_retry_at p = Some (Some t) -> storable_time t)
  /\ (forall t, p_locked_at p = Some (Some t) -> storable_time t)
  /\ (forall worker, p_locked_by p = Some (Some worker) -> storable_text worker = true)
  /\ (forall t, p_completed_at p = Some (Some t) -> storable_time t).

(** Everything a run of STEPs 3 to 5 on job [j], begun in world [w], may
    write is a value the store accepts: the clock reads storable times
    during the run, so is the retry time whenever it is a valid Date, the
    incremented count is an INTEGER, and what the external call hands back
    is text the store can hold. *)
Definition run_is_storable (e : env) (reply : Process.api_reply) (j : job)
  (w : world) : Prop :=
  (forall n, (tick w <= n <= S (tick w))%nat -> storable_time (js_clock e n))
  /\ (forall n next,
        (tick w <= n <= S (tick w))%nat ->
        Process.new_Date (js_clock e n + Process.delayMs (retry_count j + 1))
        = Some next -> storable_time next)
  /\ int4 (retry_count j + 1)
  /\ match reply with
     | Process.ApiOk apiResult => storable_json apiResult = true
     | Process.ApiNotOk code => True
     | Process.ApiFault message => storable_text message = true
     end.

(** A POST to status whose body is missing, malformed, or [null]. *)
Definition sends_no_readable_body (r : Status.request) : Prop :=
  Status.method r = POST
  /\ exists message, Status.body_job_id r = Rejected message.

Definition status_internal_error : response :=
  json_response 500 [("error", JStr "Internal server error")].

(* ===================================================================== *)
(** * What a request leaves alone *)
(* ===================================================================== *)

(** The columns a job is given when it is submitted. *)
Definition submitted (j : job)
  : string * option string * string * string * Z * Z * Z :=
  (id j, user_id j, idempotency_key j, query j,
   max_retries j, timeout_seconds j, created_at j).

Definition same_submission (j j' : job) : Prop := submitted j' = submitted j.

(** A computation that takes the table row by row to rows related by [R]:
    it neither adds nor removes a row. *)
Definition rowwise {A} (R : job -> job -> Prop) (m : M A) : Prop :=
  forall w, Forall2 R (db w) (db (snd (m w))).

(** The row is the same job, and the very same row when its id is not
    among [ids]. *)
Definition untouched_unless (ids : list string) (j j' : job) : Prop :=
  id j' = id j /\ (~ In (id j) ids -> j' = j).

(** The row is the same job, and the very same row unless it was stuck;
    unless it is the one picked; unless either. *)
Definition kept_unless_stuck (stuck : job -> bool) (a b : job) : Prop :=
  id b = id a /\ (stuck a = false -> b = a).

Definition kept_unless_picked (picked : option string) (a b : job) : Prop :=
  id b = id a /\ (Some (id a) <> picked -> b = a).

Definition kept_unless_either (stuck : job -> bool) (picked : option string)
  (a b : job) : Prop :=
  id b = id a /\ (stuck a = false -> Some (id a) <> picked -> b = a).

(** The job is out of [processing] and holds no lock. *)
Definition released (j : job) : Prop :=
  (status j = completed \/ status j = failed \/ status j = dead_letter)
  /\ locked_at j = None /\ locked_by j = None.

(** The submitter the key is built from: the [user_id] when it is truthy. *)
Definition submitter (s : Enqueue.submission) : option string :=
  if truthy_str (Enqueue.sub_user_id s) then Enqueue.sub_user_id s else None.

(** No character of the string is a colon. *)
Fixpoint no_colon (s : string) : bool :=
  match s with
  | EmptyString => true
  | String c rest => negb (Ascii.eqb c ":"%char) && no_colon rest
  end.

(** A user id as the key derivation can tell apart: no colon in it, and
    not the word the handler uses for a missing user. Every UUID is one. *)
Definition plain_user (s : Enqueue.submission) : Prop :=
  match submitter s with
  | Some u => no_colon u = true /\ u <> "anonymous"
  | None => True
  end.

(* ===================================================================== *)
(** * Basic facts *)
(* ===================================================================== *)

Lemma status_eqb_eq (a b : job_status) : status_eqb a b = true <-> a = b.
Proof. destruct a, b; simpl; split; congruence. Qed.

Lemma has_id_eq (i : string) (j : job) : has_id i j = true <-> id j = i.
Proof. unfold has_id. apply String.eqb_eq. Qed.

Lemma in_update_rows cond p now t j' :
  In j' (update_rows cond p now t) ->
  exists j, In j t /\ j' = (if cond j then apply_patch p now j else j).
Proof.
  unfold update_rows. rewrite in_map_iff.
  intros [j [Hj Hin]]. exists j. split; [assumption | now symmetry].
Qed.

Lemma update_rows_ids cond p now t :
  map id (update_rows cond p now t) = map id t.
Proof.
  unfold update_rows. rewrite map_map. apply map_ext.
  intros j. now destruct (cond j).
Qed.

Lemma in_insert_row j t t' r :
  insert_row j t = Some t' -> In r t' -> In r t \/ r = j.
Proof.
  unfold insert_row. destruct (violates_unique j t); [discriminate |].
  intros [= <-] Hin. apply in_app_or in Hin as [Hin | [-> | []]]; auto.
Qed.

Lemma kr_ret {A} (a : A) : keeps_reachable (ret a).
Proof. intros w H. exact H. Qed.

Lemma kr_throw {A} (msg : string) : keeps_reachable (@throw A msg).
Proof. intros w H. exact H. Qed.

Lemma kr_bind {A B} (m : M A) (k : A -> M B) :
  keeps_reachable m -> (forall a, keeps_reachable (k a)) ->
  keeps_reachable (bind m k).
Proof.
  intros Hm Hk w H. unfold bind. specialize (Hm w H).
  destruct (m w) as [[a | msg] w']; simpl in *.
  - now apply Hk.
  - exact Hm.
Qed.

Lemma kr_try_catch {A} (m : M A) (h : string -> M A) :
  keeps_reachable m -> (forall msg, keeps_reachable (h msg)) ->
  keeps_reachable (try_catch m h).
Proof.
  intros Hm Hh w H. unfold try_catch. specialize (Hm w H).
  destruct (m w) as [[a | msg] w']; simpl in *.
  - exact Hm.
  - now apply Hh.
Qed.

Lemma kr_for_each {A} (xs : list A) (body : A -> M unit) :
  (forall x, keeps_reachable (body x)) -> keeps_reachable (for_each xs body).
Proof.
  intros Hb. induction xs as [| x xs IH]; simpl.
  - apply kr_ret.
  - apply kr_bind; [apply Hb | intros _; exact IH].
Qed.

Lemma kr_date_now e : keeps_reachable (date_now e).
Proof. intros w H. exact H. Qed.

Lemma kr_db_select cond : keeps_reachable (db_select cond).
Proof. intros w H. exact H. Qed.

Lemma kr_db_update e cond p : sends cond p -> keeps_reachable (db_update e cond p).
Proof.
  intros Hs w H. simpl. eapply reachable_step; [exact H |].
  now apply step_update.
Qed.

Lemma kr_db_insert e s : keeps_reachable (db_insert e (Enqueue.new_job s)).
Proof.
  intros w H. unfold db_insert.
  destruct (insert_row _ (db w)) as [t |] eqn:Hins; simpl.
  - eapply reachable_step; [exact H |]. eapply step_insert. exact Hins.
  - exact H.
Qed.

Lemma kr_req_json {A} (b : parsed A) : keeps_reachable (req_json b).
Proof. destruct b; [apply kr_throw | apply kr_ret]. Qed.

Ltac kr_step :=
  first
    [ apply kr_ret | apply kr_throw
    | apply kr_date_now | apply kr_db_select | apply kr_db_insert
    | apply kr_req_json
    | apply kr_db_update; constructor
    | apply kr_bind; [| intros ?]
    | apply kr_try_catch; [| intros ?] ].

Ltac kr := repeat kr_step.

Lemma kr_calculateNextRetryTime e rc :
  keeps_reachable (Process.calculateNextRetryTime e rc).
Proof. unfold Process.calculateNextRetryTime. kr. Qed.

Lemma kr_toISOString d : keeps_reachable (Process.toISOString d).
Proof. destruct d; simpl; kr. Qed.

Lemma kr_release_stuck_jobs e : keeps_reachable (Process.release_stuck_jobs e).
Proof.
  unfold Process.release_stuck_jobs, Process.select_stuck_jobs. kr.
  apply kr_for_each. intros s. unfold Process.release_stuck_job.
  destruct (_ >=? _); kr;
    auto using kr_calculateNextRetryTime, kr_toISOString.
Qed.

Lemma kr_claim e : keeps_reachable (Process.claim e).
Proof.
  unfold Process.claim. apply kr_bind; [apply kr_release_stuck_jobs | intros _].
  unfold Process.pick_job. kr.
  destruct (snd _) as [j |]; kr.
Qed.

Lemma kr_run_job e forceFail reply j :
  keeps_reachable (Process.run_job e forceFail reply j).
Proof.
  unfold Process.run_job. apply kr_try_catch.
  - apply kr_bind.
    + unfold Process.call_api. destruct forceFail; kr. destruct reply; kr.
    + intros r. unfold Process.job_succeeded. kr.
  - intros msg. unfold Process.job_failed.
    destruct (_ >=? _); kr;
      auto using kr_calculateNextRetryTime, kr_toISOString.
Qed.

(** Whatever the handlers do to the table is a sequence of the statements
    of [step]. *)
Lemma kr_process_handler e m forceFail reply :
  keeps_reachable (Process.handler e m forceFail reply).
Proof.
  unfold Process.handler.
  destruct m; try apply kr_ret;
    (apply kr_try_catch; [| intros ?; apply kr_ret]);
    (apply kr_bind; [apply kr_claim | intros [r | j]];
     [apply kr_ret | apply kr_run_job]).
Qed.

Lemma kr_enqueue_handler e m request :
  keeps_reachable (Enqueue.handler e m request).
Proof.
  unfold Enqueue.handler.
  destruct m; try apply kr_ret;
    (apply kr_try_catch; [| intros ?; apply kr_ret]);
    (apply kr_bind; [apply kr_req_json | intros s]);
    (destruct (negb _); [apply kr_ret |]);
    (apply kr_bind; [apply kr_db_select | intros rows]);
    (destruct (single rows); [apply kr_ret |]);
    (apply kr_bind; [apply kr_db_insert | intros [i | d]; apply kr_ret]).
Qed.

Ltac kr_handlers :=
  repeat first
    [ apply kr_enqueue_handler | apply kr_process_handler | apply kr_claim
    | apply kr_release_stuck_jobs | apply kr_run_job
    | apply kr_bind; [| intros ?] ].

Lemma status_handler_reads_only r w : db (snd (Status.handler r w)) = db w.
Proof.
  unfold Status.handler, try_catch, bind.
  destruct (Status.method r); try reflexivity;
    try (destruct (Status.body_job_id r) as [msg | jobId]; simpl; [reflexivity |]);
    try (set (jobId := Status.url_job_id r)); simpl;
    destruct (negb (truthy_str jobId)); simpl; try reflexivity;
    destruct (single _); reflexivity.
Qed.

(** Serving a request takes the store from a reachable state to a
    reachable state. *)
Lemma serves_reachable t t' : serves t t' -> reachable t -> reachable t'.
Proof.
  destruct 1; intros Hr.
  - now apply kr_enqueue_handler.
  - now apply kr_process_handler.
  - now apply kr_claim.
  - now rewrite status_handler_reads_only.
Qed.

(* ===================================================================== *)
(** * Lock fields and status *)
(* ===================================================================== *)

Lemma sends_writes_lock_consistently cond p :
  sends cond p -> writes_lock_consistently p.
Proof.
  unfold writes_lock_consistently, is_set.
  destruct 1; simpl; do 3 eexists; repeat split; try reflexivity;
    intros; try congruence; try discriminate; exfalso; auto.
Qed.

Lemma apply_patch_lock_consistent p now j :
  writes_lock_consistently p -> lock_consistent (apply_patch p now j).
Proof.
  intros (s & la & lb & Hs & Hla & Hlb & H1 & H2).
  unfold lock_consistent. simpl. rewrite Hs, Hla, Hlb. simpl.
  split; [rewrite H1, H2; reflexivity | exact H1].
Qed.

Lemma new_job_lock_consistent s uuid now :
  lock_consistent (Enqueue.new_job s uuid now).
Proof.
  unfold lock_consistent, is_set. simpl.
  repeat split; intros; congruence.
Qed.

Lemma step_lock_consistent t t' :
  step t t' ->
  (forall j, In j t -> lock_consistent j) ->
  forall j, In j t' -> lock_consistent j.
Proof.
  intros Hstep IH j Hin. destruct Hstep as [s uuid now t t' Hins | cond p now t Hs].
  - destruct (in_insert_row _ _ _ _ Hins Hin) as [Hold | ->].
    + now apply IH.
    + apply new_job_lock_consistent.
  - apply in_update_rows in Hin as [j0 [Hin0 ->]].
    destruct (cond j0).
    + apply apply_patch_lock_consistent.
      eapply sends_writes_lock_consistently; eassumption.
    + now apply IH.
Qed.

Lemma reachable_lock_consistent t :
  reachable t -> forall j, In j t -> lock_consistent j.
Proof.
  induction 1 as [| t t' Hr IH Hstep].
  - intros j [].
  - now apply (step_lock_consistent t t').
Qed.

Lemma reachable_weather_submitted :
  reachable
    (Scenario.table_after
       (Enqueue.handler (Scenario.worker "w" Scenario.fast_clock) POST
          Scenario.weather)).
Proof.
  unfold Scenario.table_after. apply kr_enqueue_handler. apply reachable_empty.
Qed.

(** C6. In every state the store can reach, whichever way the statements
    of the functions interleave, a job has [locked_at] set exactly when it
    has [locked_by] set and exactly when its status is [processing]; every
    UPDATE the functions send writes the status and both lock fields
    together, sets both lock fields when it writes [processing] and clears
    both when it writes any other status, and leaves the row it changes in
    agreement again; so does every request served from such a state. *)
Theorem lock_fields_agree_with_status (t : table) (j : job)
  (cond : job -> bool) (p : patch) (db_now : Z) :
  reachable t -> In j t -> sends cond p ->
  lock_consistent j
  /\ writes_lock_consistently p
  /\ (p_status p <> Some processing ->
      p_locked_at p = Some None /\ p_locked_by p = Some None)
  /\ (p_status p = Some processing ->
      exists now worker,
        p_locked_at p = Some (Some now) /\ p_locked_by p = Some (Some worker))
  /\ lock_consistent (apply_patch p db_now j)
  /\ (forall j', In j' (update_rows cond p db_now t) -> lock_consistent j')
  /\ (forall t', serves t t' -> forall j', In j' t' -> lock_consistent j').
Proof.
  intros Hr Hin Hs.
  assert (Hw : writes_lock_consistently p)
    by (eapply sends_writes_lock_consistently; eassumption).
  split; [now apply (reachable_lock_consistent t) |].
  split; [exact Hw |].
  split; [destruct Hs; simpl; intros Hne; try (split; reflexivity); congruence |].
  split; [destruct Hs; simpl; intros Heq; try discriminate; eauto |].
  split; [now apply apply_patch_lock_consistent |].
  split.
  - apply (reachable_lock_consistent (update_rows cond p db_now t)).
    eapply reachable_step; [exact Hr | now apply step_update].
  - intros t' Hserve. apply reachable_lock_consistent.
    now apply (serves_reachable t t').
Qed.

Lemma lock_fields_agree_with_status_witness :
  let t := Scenario.table_after
             (Enqueue.handler (Scenario.worker "w" Scenario.fast_clock) POST
                Scenario.weather) in
  let j := Enqueue.new_job
             {| Enqueue.sub_query := Some "weather in Tokyo";
                Enqueue.sub_user_id := None |} "job-0" 1000 in
  let p := Process.lock 1002 "w" in
  lock_consistent j
  /\ writes_lock_consistently p
  /\ (p_status p <> Some processing ->
      p_locked_at p = Some None /\ p_locked_by p = Some None)
  /\ (p_status p = Some processing ->
      exists now worker,
        p_locked_at p = Some (Some now) /\ p_locked_by p = Some (Some worker))
  /\ lock_consistent (apply_patch p 1003 j)
  /\ (forall j',
        In j' (update_rows (Process.lockable "job-0") p 1003 t) ->
        lock_consistent j')
  /\ (forall t', serves t t' -> forall j', In j' t' -> lock_consistent j').
Proof.
  intros t j p.
  apply (lock_fields_agree_with_status t j (Process.lockable "job-0") p 1003).
  - exact reachable_weather_submitted.
  - vm_compute. left. reflexivity.
  - apply sends_lock.
Defined.

(* ===================================================================== *)
(** * error_message and status *)
(* ===================================================================== *)

Lemma step_error_message t t' :
  step t t' ->
  (forall j, In j t -> failed_or_dead j -> is_set (error_message j)) ->
  forall j, In j t' -> failed_or_dead j -> is_set (error_message j).
Proof.
  intros Hstep IH j Hin. destruct Hstep as [s uuid now t t' Hins | cond p now t Hs].
  - destruct (in_insert_row _ _ _ _ Hins Hin) as [Hold | ->].
    + now apply IH.
    + intros [H | H]; discriminate H.
  - apply in_update_rows in Hin as [j0 [Hin0 ->]].
    destruct (cond j0); [| now apply IH].
    unfold failed_or_dead, is_set.
    destruct Hs; simpl; intros [H | H]; congruence.
Qed.

Lemma reachable_error_message t :
  reachable t ->
  forall j, In j t -> failed_or_dead j -> is_set (error_message j).
Proof.
  induction 1 as [| t t' Hr IH Hstep].
  - intros j [].
  - now apply (step_error_message t t').
Qed.

Lemma kr_timeout_then_release : keeps_reachable Scenario.timeout_then_release.
Proof.
  unfold Scenario.timeout_then_release. cbv zeta. kr_handlers.
Qed.

(** C5, as amended. In every state the store can reach, and after every
    request served from such a state, a job whose status is [failed] or
    [dead_letter] has its [error_message] set. *)
Theorem error_message_set_when_failed (t : table) (j : job) :
  reachable t -> In j t -> failed_or_dead j ->
  is_set (error_message j)
  /\ (forall t', serves t t' ->
      forall j', In j' t' -> failed_or_dead j' -> is_set (error_message j')).
Proof.
  intros Hr Hin Hfd. split.
  - now apply (reachable_error_message t).
  - intros t' Hserve. apply reachable_error_message.
    now apply (serves_reachable t t').
Qed.

(** C5, as stated, fails: after a claimed job has timed out and been
    released, it is [pending] and carries the error message the release
    wrote, so [error_message] is set on a job that is neither [failed] nor
    [dead_letter]. *)
Lemma pending_job_carries_error_message :
  let t := Scenario.table_after Scenario.timeout_then_release in
  reachable t
  /\ exists j,
       In j t
       /\ status j = pending
       /\ error_message j = Some "Job timed out, will retry"
       /\ ~ (is_set (error_message j) <-> failed_or_dead j).
Proof.
  split.
  - apply kr_timeout_then_release. apply reachable_empty.
  - vm_compute. eexists. split; [left; reflexivity |].
    split; [reflexivity |]. split; [reflexivity |].
    intros [H _].
    destruct H as [H | H]; [discriminate | discriminate H | discriminate H].
Qed.

Lemma kr_three_timeouts_then_failure :
  keeps_reachable Scenario.three_timeouts_then_failure.
Proof. unfold Scenario.three_timeouts_then_failure. cbv zeta. kr_handlers. Qed.

Lemma error_message_set_when_failed_witness :
  let t := Scenario.table_after Scenario.three_timeouts_then_failure in
  is_set (error_message (Scenario.first_row t))
  /\ (forall t', serves t t' ->
      forall j', In j' t' -> failed_or_dead j' -> is_set (error_message j')).
Proof.
  intros t.
  apply (error_message_set_when_failed
           (Scenario.table_after Scenario.three_timeouts_then_failure)).
  - apply kr_three_timeouts_then_failure. apply reachable_empty.
  - vm_compute. left. reflexivity.
  - right. vm_compute. reflexivity.
Defined.

(* ===================================================================== *)
(** * Backoff *)
(* ===================================================================== *)

Lemma delayMs_nonneg_count (retryCount : Z) :
  0 <= retryCount -> Process.delayMs retryCount = 10000 * 2 ^ retryCount.
Proof.
  intros H. unfold Process.delayMs, Process.baseDelayMs.
  destruct (0 <=? retryCount) eqn:E; [reflexivity |].
  apply Z.leb_gt in E. lia.
Qed.

Lemma new_Date_in_range (t : Z) :
  Z.abs t <= Process.max_time_value -> Process.new_Date t = Some t.
Proof.
  intros H. unfold Process.new_Date.
  destruct (Z.abs t <=? Process.max_time_value) eqn:E; [reflexivity |].
  apply Z.leb_gt in E. lia.
Qed.

Lemma job_failed_retry e j message w next :
  retry_count j + 1 < max_retries j ->
  fst (Process.calculateNextRetryTime e (retry_count j + 1) w) = Done (Some next) ->
  Process.job_failed e j message w =
  (Done (json_response 200
           [("message", JStr "Job failed, retry scheduled");
            ("job_id", JStr (id j));
            ("status", JStr "failed");
            ("retry_count", JNum (retry_count j + 1));
            ("next_retry_at", JTime next)]),
   after_update e w (has_id (id j))
     (Process.fail_retry message (retry_count j + 1) next)).
Proof.
  intros Hlt Hnext. unfold Process.job_failed.
  destruct (retry_count j + 1 >=? max_retries j) eqn:E.
  - rewrite Z.geb_le in E. lia.
  - unfold Process.calculateNextRetryTime, bind, date_now, ret in *.
    simpl in Hnext. injection Hnext as Hnext.
    simpl. rewrite Hnext. reflexivity.
Qed.

Lemma job_failed_dead_letter e j message w :
  max_retries j <= retry_count j + 1 ->
  Process.job_failed e j message w =
  (Done (json_response 200
           [("message", JStr "Job failed permanently, moved to dead letter queue");
            ("job_id", JStr (id j));
            ("status", JStr "dead_letter");
            ("attempts", JNum (retry_count j + 1))]),
   after_update e w (has_id (id j))
     (Process.fail_dead_letter message (retry_count j + 1)
        (js_clock e (tick w)))).
Proof.
  intros Hle. unfold Process.job_failed.
  destruct (retry_count j + 1 >=? max_retries j) eqn:E.
  - reflexivity.
  - rewrite Z.geb_leb in E. apply Z.leb_gt in E. lia.
Qed.

Lemma calculateNextRetryTime_value e retryCount w :
  0 <= retryCount ->
  Z.abs (js_clock e (tick w) + 10000 * 2 ^ retryCount) <= Process.max_time_value ->
  fst (Process.calculateNextRetryTime e retryCount w)
  = Done (Some (js_clock e (tick w) + 10000 * 2 ^ retryCount)).
Proof.
  intros H0 Hr. unfold Process.calculateNextRetryTime, bind, date_now, ret.
  simpl. rewrite (delayMs_nonneg_count _ H0).
  now rewrite new_Date_in_range.
Qed.

(** C2, what the code does. For a job with [max_retries] 3 a failed run
    schedules the retry 20 s after the failure when it is the first
    (the count goes to 1) and 40 s after it when it is the second (the
    count goes to 2): the delay is 10 s doubled once per failure counted,
    this one included, so no failure is followed by a wait of 10 s. The
    third failure writes [dead_letter] and leaves [next_retry_at] as the
    second failure set it. *)
Theorem backoff_after_failures (e : env) (w : world) (j : job)
  (message : string) :
  max_retries j = 3 ->
  0 <= js_clock e (tick w) <= 8000000000000000 ->
  let now := js_clock e (tick w) in
  (retry_count j = 0 ->
   snd (Process.job_failed e j message w)
   = after_update e w (has_id (id j)) (Process.fail_retry message 1 (now + 20000)))
  /\ (retry_count j = 1 ->
      snd (Process.job_failed e j message w)
      = after_update e w (has_id (id j)) (Process.fail_retry message 2 (now + 40000)))
  /\ (retry_count j = 2 ->
      snd (Process.job_failed e j message w)
      = after_update e w (has_id (id j)) (Process.fail_dead_letter message 3 now))
  /\ p_next_retry_at (Process.fail_dead_letter message 3 now) = None.
Proof.
  intros Hmax Hnow now. unfold Process.max_time_value in *.
  repeat split.
  - intros Hrc.
    rewrite (job_failed_retry e j message w (now + 20000)); rewrite ?Hrc, ?Hmax;
      try reflexivity; try lia.
    rewrite calculateNextRetryTime_value; try reflexivity; try lia.
    unfold Process.max_time_value. subst now. simpl (10000 * 2 ^ _). lia.
  - intros Hrc.
    rewrite (job_failed_retry e j message w (now + 40000)); rewrite ?Hrc, ?Hmax;
      try reflexivity; try lia.
    rewrite calculateNextRetryTime_value; try reflexivity; try lia.
    unfold Process.max_time_value. subst now. simpl (10000 * 2 ^ _). lia.
  - intros Hrc.
    rewrite job_failed_dead_letter; rewrite ?Hrc, ?Hmax; try reflexivity; lia.
Qed.

Lemma backoff_after_failures_witness :
  let e := Scenario.worker "w" Scenario.fast_clock in
  let w := Scenario.start in
  let j := Enqueue.new_job
             {| Enqueue.sub_query := Some "weather in Tokyo";
                Enqueue.sub_user_id := None |} "job-0" 1000 in
  let message := "Forced failure for testing retry mechanism" in
  (retry_count j = 0 ->
   snd (Process.job_failed e j message w)
   = after_update e w (has_id (id j)) (Process.fail_retry message 1 (1000 + 20000)))
  /\ (retry_count j = 1 ->
      snd (Process.job_failed e j message w)
      = after_update e w (has_id (id j)) (Process.fail_retry message 2 (1000 + 40000)))
  /\ (retry_count j = 2 ->
      snd (Process.job_failed e j message w)
      = after_update e w (has_id (id j)) (Process.fail_dead_letter message 3 1000))
  /\ p_next_retry_at (Process.fail_dead_letter message 3 1000) = None.
Proof.
  intros e w j message.
  apply (backoff_after_failures e w j message).
  - reflexivity.
  - vm_compute. split; discriminate.
Defined.

(* ===================================================================== *)
(** * The stale-lock reaper *)
(* ===================================================================== *)

Lemma is_stuck_spec (threshold : Z) (j : job) :
  Process.is_stuck threshold j = true
  <-> status j = processing
      /\ exists t, locked_at j = Some t /\ t < threshold.
Proof.
  unfold Process.is_stuck. rewrite andb_true_iff, status_eqb_eq.
  destruct (locked_at j) as [t |].
  - rewrite Z.ltb_lt. split.
    + intros [Hs Ht]. split; [exact Hs | exists t; auto].
    + intros [Hs [t' [[= <-] Ht]]]. auto.
  - split.
    + intros [_ H]. discriminate H.
    + intros [_ [t [H _]]]. discriminate H.
Qed.

(** The rows the reaper finds are those in [processing] locked more than
    600 seconds before the reading of the clock, for every job alike. *)
Lemma select_stuck_jobs_spec (e : env) (w : world) :
  exists rows,
    fst (Process.select_stuck_jobs e w) = Done (map Process.stuck_of rows)
    /\ forall j,
         In j rows
         <-> In j (db w)
             /\ status j = processing
             /\ exists t, locked_at j = Some t
                          /\ t < js_clock e (tick w) - 600 * 1000.
Proof.
  exists (filter (Process.is_stuck (js_clock e (tick w) - 600 * 1000)) (db w)).
  split; [reflexivity |].
  intros j. rewrite filter_In, is_stuck_spec. reflexivity.
Qed.

(** C3, what the code does. Job A was locked 120 s ago and its own
    [timeout_seconds] is 60; job B was locked 700 s ago and its own
    [timeout_seconds] is 3600. The reaper finds B and not A: it compares
    every lock with the constant 600 s and never reads [timeout_seconds]. *)
Theorem reaper_ignores_timeout_seconds :
  let e := Scenario.worker "w" Scenario.late_clock in
  let now := js_clock e (tick Scenario.two_locked_jobs) in
  locked_at Scenario.job_A = Some (now - 120 * 1000)
  /\ timeout_seconds Scenario.job_A = 60
  /\ locked_at Scenario.job_B = Some (now - 700 * 1000)
  /\ timeout_seconds Scenario.job_B = 3600
  /\ fst (Process.select_stuck_jobs e Scenario.two_locked_jobs)
     = Done [Process.stuck_of Scenario.job_B].
Proof. vm_compute. repeat split; reflexivity. Qed.

Lemma in_update_rows_intro cond p now t j :
  In j t -> cond j = true -> In (apply_patch p now j) (update_rows cond p now t).
Proof.
  intros Hin Hc. unfold update_rows. apply in_map_iff.
  exists j. rewrite Hc. auto.
Qed.






(* ===================================================================== *)
(** * Claiming a job *)
(* ===================================================================== *)

(** Once a lock statement has run, the same statement finds no row. *)
Lemma second_lock_matches_no_row i now worker db_now (t : table) :
  rows_affected (Process.lockable i)
    (update_rows (Process.lockable i) (Process.lock now worker) db_now t)
  = 0%nat.
Proof.
  unfold rows_affected, update_rows.
  induction t as [| j t IH]; simpl; [reflexivity |].
  destruct (Process.lockable i j) eqn:E.
  - unfold Process.lockable at 1. simpl. rewrite andb_false_r. exact IH.
  - rewrite E. exact IH.
Qed.

(** A lock statement reports no error, whatever it matched. *)
Lemma lock_job_reports_no_error e now j w :
  fst (Process.lock_job e now j w) = Done None.
Proof. reflexivity. Qed.

(** C1, what the code does. Two workers pick the one eligible job before
    either locks it. The first lock statement matches one row and the
    second none, as the guard on the status intends; but the second
    statement reports no error either, [lockError] being the only thing the
    handler looks at, so the second worker goes on, calls the external API
    for the same job and answers that it processed it. *)
Theorem losing_claimant_runs_the_job :
  (forall i now worker db_now t,
     rows_affected (Process.lockable i)
       (update_rows (Process.lockable i) (Process.lock now worker) db_now t)
     = 0%nat)
  /\ (forall e now j w, fst (Process.lock_job e now j w) = Done None)
  /\ Scenario.answer Scenario.race
     = Done (1%nat, 0%nat, None,
             json_response 200
               [("message", JStr "Job processed successfully");
                ("job_id", JStr "job-0");
                ("status", JStr "completed")],
             json_response 200
               [("message", JStr "Job processed successfully");
                ("job_id", JStr "job-0");
                ("status", JStr "completed")]).
Proof.
  split; [exact second_lock_matches_no_row |].
  split; [exact lock_job_reports_no_error |].
  vm_compute. reflexivity.
Qed.

(* ===================================================================== *)
(** * retry_count and max_retries *)
(* ===================================================================== *)

Lemma kr_third_timeout_released : keeps_reachable Scenario.third_timeout_released.
Proof. unfold Scenario.third_timeout_released. cbv zeta. kr_handlers. Qed.

(** C4, what the code does. A submitted job (max_retries 3) times out
    three times. The third release brings [retry_count] to 3, the value of
    [max_retries], and leaves the job [pending], not [dead_letter]; the job
    is then claimed once more, and when that run fails the resolver counts
    a fourth attempt: the job ends in [dead_letter] with [retry_count] 4. *)
Theorem retry_count_exceeds_max_retries :
  let t3 := Scenario.table_after Scenario.third_timeout_released in
  let t4 := Scenario.table_after Scenario.three_timeouts_then_failure in
  let j3 := Scenario.first_row t3 in
  let j4 := Scenario.first_row t4 in
  reachable t3 /\ In j3 t3
  /\ status j3 = pending /\ retry_count j3 = 3 /\ max_retries j3 = 3
  /\ reachable t4 /\ In j4 t4
  /\ status j4 = dead_letter /\ retry_count j4 = 4 /\ max_retries j4 = 3
  /\ ~ retry_count j4 <= max_retries j4.
Proof.
  intros t3 t4 j3 j4.
  split; [apply kr_third_timeout_released; apply reachable_empty |].
  split; [vm_compute; left; reflexivity |].
  do 3 (split; [vm_compute; reflexivity |]).
  split; [apply kr_three_timeouts_then_failure; apply reachable_empty |].
  split; [vm_compute; left; reflexivity |].
  do 3 (split; [vm_compute; reflexivity |]).
  vm_compute. intros H. apply H. reflexivity.
Qed.

(* ===================================================================== *)
(** * Submission *)
(* ===================================================================== *)

Lemma enqueue_returns_active_job e (s : Enqueue.submission) (w : world) (j : job) :
  truthy_str (Enqueue.sub_query s) = true ->
  single (filter (Enqueue.active_with_key (Enqueue.idempotencyKey s)) (db w)) = Some j ->
  Enqueue.handler e POST (Parsed s) w
  = (Done (json_response 200
             [("job_id", JStr (id j));
              ("message", JStr "Job already exists");
              ("status", JStr (status_name (status j)))]),
     {| db := db w; tick := tick w; sent := sent w ++ [SELECT] |}).
Proof.
  intros Hq Hj. unfold Enqueue.handler, try_catch, bind. simpl.
  rewrite Hq. simpl. rewrite Hj. reflexivity.
Qed.

Lemma enqueue_inserts_when_key_is_free e (s : Enqueue.submission) (w : world) :
  truthy_str (Enqueue.sub_query s) = true ->
  let j := Enqueue.new_job s (gen_random_uuid e (tick w)) (db_clock e (tick w)) in
  violates_unique j (db w) = false ->
  single (filter (Enqueue.active_with_key (Enqueue.idempotencyKey s)) (db w)) = None
  /\ Enqueue.handler e POST (Parsed s) w
     = (Done (json_response 201
                [("job_id", JStr (id j));
                 ("message", JStr "Job created successfully");
                 ("status", JStr "pending")]),
        {| db := db w ++ [j];
           tick := S (tick w);
           sent := sent w ++ [SELECT; INSERT] |})
  /\ status j = pending /\ retry_count j = 0
  /\ max_retries j = 3 /\ timeout_seconds j = 600.
Proof.
  intros Hq j Hfree.
  assert (Hnone : filter (Enqueue.active_with_key (Enqueue.idempotencyKey s)) (db w) = []).
  { unfold violates_unique in Hfree.
    induction (db w) as [| r t IH]; [reflexivity |].
    simpl in Hfree. apply orb_false_elim in Hfree as [Hr Ht].
    apply orb_false_elim in Hr as [_ Hkey].
    simpl. unfold Enqueue.active_with_key at 1.
    subst j. simpl in Hkey. rewrite Hkey. simpl. now apply IH. }
  split; [now rewrite Hnone |].
  split; [| repeat split].
  unfold Enqueue.handler, try_catch, bind. simpl.
  rewrite Hq. simpl. rewrite Hnone. simpl.
  unfold db_insert. simpl. unfold insert_row. fold j. rewrite Hfree. simpl.
  rewrite <- app_assoc. reflexivity.
Qed.

(** C8, what the code does. A job is submitted and processed to
    completion; the same query is submitted again. No active job has the
    key, so the handler sends the INSERT; the completed row still holds the
    key, the UNIQUE constraint on [idempotency_key] rejects the new row, and
    the handler answers 500 "Failed to create job". The table still holds
    the completed job alone. *)
Theorem resubmission_after_completion_is_rejected :
  let t := Scenario.table_after Scenario.resubmit_after_completion in
  Scenario.answer Scenario.resubmit_after_completion
  = Done (json_response 500
            [("error", JStr "Failed to create job");
             ("details", JStr "duplicate key value violates unique constraint")])
  /\ List.length t = 1%nat
  /\ status (Scenario.first_row t) = completed
  /\ idempotency_key (Scenario.first_row t) = "anonymous:weather in Tokyo".
Proof. vm_compute. repeat split; reflexivity. Qed.

(* ===================================================================== *)
(** * The status view *)
(* ===================================================================== *)

Lemma NoDup_snoc {A} (l : list A) (x : A) :
  NoDup l -> ~ In x l -> NoDup (l ++ [x]).
Proof.
  induction l as [| y l IH]; simpl; intros Hnd Hx.
  - constructor; [intros [] | constructor].
  - inversion Hnd as [| ? ? Hy Hl]; subst. constructor.
    + intros Hin. apply in_app_or in Hin as [Hin | [-> | []]]; auto.
    + apply IH; auto.
Qed.

Lemma step_unique_ids t t' : step t t' -> NoDup (map id t) -> NoDup (map id t').
Proof.
  intros [s uuid now t0 t1 Hins | cond p now t0 Hs] Hnd.
  - unfold insert_row in Hins.
    destruct (violates_unique _ t0) eqn:E; [discriminate |].
    injection Hins as <-. rewrite map_app. simpl.
    apply NoDup_snoc; [exact Hnd |].
    intros Hin. apply in_map_iff in Hin as [r [Hid Hr]].
    unfold violates_unique in E.
    assert (Hex : existsb
                    (fun r0 => ((id r0 =? id (Enqueue.new_job s uuid now))%string
                                || (idempotency_key r0
                                    =? idempotency_key (Enqueue.new_job s uuid now))%string))
                    t0 = true).
    { apply existsb_exists. exists r. split; [exact Hr |].
      simpl. rewrite Hid, String.eqb_refl. reflexivity. }
    congruence.
  - now rewrite update_rows_ids.
Qed.

(** The primary key holds in every state the store can reach. *)
Lemma reachable_unique_ids t : reachable t -> NoDup (map id t).
Proof.
  induction 1 as [| t t' Hr IH Hstep].
  - constructor.
  - now apply (step_unique_ids t t').
Qed.

Lemma filter_has_id_none i (t : table) :
  (forall j, In j t -> id j <> i) -> filter (has_id i) t = [].
Proof.
  induction t as [| r t IH]; simpl; intros H; [reflexivity |].
  destruct (has_id i r) eqn:E.
  - apply has_id_eq in E. exfalso. apply (H r); auto.
  - apply IH. intros j Hj. apply H. now right.
Qed.

Lemma filter_has_id_unique i (t : table) (j : job) :
  NoDup (map id t) -> In j t -> id j = i -> filter (has_id i) t = [j].
Proof.
  induction t as [| r t IH]; simpl; intros Hnd Hin Hid; [contradiction |].
  inversion Hnd as [| ? ? Hr Ht]; subst.
  destruct Hin as [-> | Hin].
  - assert (E : has_id (id j) j = true) by now apply has_id_eq.
    rewrite E. f_equal. apply filter_has_id_none.
    intros k Hk Heq. apply Hr. rewrite <- Heq. now apply in_map.
  - destruct (has_id (id j) r) eqn:E.
    + apply has_id_eq in E. exfalso. apply Hr. rewrite E. now apply in_map.
    + now apply IH.
Qed.

Lemma status_handler_asks i r w :
  asks_for r i -> i <> "" ->
  Status.handler r w
  = (Done match single (filter (has_id i) (db w)) with
          | None => Status.job_not_found
          | Some j => json_response 200 (Status.project j)
          end,
     {| db := db w; tick := tick w; sent := sent w ++ [SELECT] |}).
Proof.
  intros Hr Hne.
  assert (Ht : (i =? "")%string = false) by now apply String.eqb_neq.
  unfold Status.handler, try_catch, bind.
  destruct Hr as [[Hm Hu] | [Hm Hb]]; rewrite Hm.
  - rewrite Hu. simpl. rewrite Ht. simpl.
    destruct (single _); reflexivity.
  - rewrite Hb. simpl. rewrite Ht. simpl.
    destruct (single _); reflexivity.
Qed.

Lemma project_fields (j : job) :
  let view := Status.project j in
  get_prop "job_id" view = Some (JStr (id j))
  /\ get_prop "status" view = Some (JStr (status_name (status j)))
  /\ (has_prop "result" view = true
      <-> status j = completed /\ truthy (result j) = true)
  /\ (has_prop "result" view = true -> get_prop "result" view = Some (result j))
  /\ (has_prop "error_message" view = true <-> failed_or_dead j)
  /\ (failed_or_dead j ->
      get_prop "error_message" view = Some (json_of_opt JStr (error_message j)))
  /\ (has_prop "retry_count" view = true <-> shows_retries j)
  /\ (has_prop "max_retries" view = true <-> shows_retries j)
  /\ (shows_retries j ->
      get_prop "retry_count" view = Some (JNum (retry_count j))
      /\ get_prop "max_retries" view = Some (JNum (max_retries j))).
Proof.
  unfold Status.project, failed_or_dead, shows_retries, has_prop.
  pose proof (Z.gtb_spec (retry_count j) 0) as Hgt.
  destruct (status j) eqn:Es, (truthy (result j)) eqn:Et,
    (retry_count j >? 0) eqn:Eg; simpl; inversion Hgt;
    repeat split; intros; try reflexivity; try discriminate; try lia; auto;
    repeat match goal with
      | H : _ /\ _ |- _ => destruct H
      | H : _ \/ _ |- _ => destruct H
      end; try discriminate; try lia; auto.
  all: right; right; split; [reflexivity | lia].
Qed.

(** C9, as amended. A status request for a job id sends one SELECT and
    changes nothing. When no job has the id the answer is 404 "Job not
    found". Otherwise the answer is a view of the job holding its status;
    its result exactly when the status is [completed] and the stored result
    is truthy (not null, false, 0 or the empty string); its error message
    exactly when the status is [failed] or [dead_letter]; its retry_count
    and max_retries exactly when the status is [failed] or [dead_letter],
    or [pending] with a retry_count above 0. *)
Theorem status_is_a_read_only_view (r : Status.request) (w : world) (i : string) :
  asks_for r i -> i <> "" -> NoDup (map id (db w)) ->
  let answer := fst (Status.handler r w) in
  let w' := snd (Status.handler r w) in
  db w' = db w
  /\ sent w' = sent w ++ [SELECT]
  /\ ((forall j, In j (db w) -> id j <> i) -> answer = Done Status.job_not_found)
  /\ (forall j, In j (db w) -> id j = i ->
      exists view,
        answer = Done (json_response 200 view)
        /\ get_prop "job_id" view = Some (JStr (id j))
        /\ get_prop "status" view = Some (JStr (status_name (status j)))
        /\ (has_prop "result" view = true
            <-> status j = completed /\ truthy (result j) = true)
        /\ (has_prop "result" view = true ->
            get_prop "result" view = Some (result j))
        /\ (has_prop "error_message" view = true <-> failed_or_dead j)
        /\ (failed_or_dead j ->
            get_prop "error_message" view
            = Some (json_of_opt JStr (error_message j)))
        /\ (has_prop "retry_count" view = true <-> shows_retries j)
        /\ (has_prop "max_retries" view = true <-> shows_retries j)
        /\ (shows_retries j ->
            get_prop "retry_count" view = Some (JNum (retry_count j))
            /\ get_prop "max_retries" view = Some (JNum (max_retries j)))).
Proof.
  intros Hr Hne Hnd answer w'. subst answer w'.
  rewrite (status_handler_asks i r w Hr Hne). simpl fst. simpl snd.
  split; [reflexivity |]. split; [reflexivity |]. split.
  - intros Hnone. now rewrite (filter_has_id_none i (db w) Hnone).
  - intros j Hin Hid. rewrite (filter_has_id_unique i (db w) j Hnd Hin Hid).
    exists (Status.project j). split; [reflexivity |].
    exact (project_fields j).
Qed.

Lemma status_is_a_read_only_view_witness :
  let r := Scenario.get_status "job-0" in
  let w := Scenario.one_completed_job in
  let i := "job-0" in
  let answer := fst (Status.handler r w) in
  let w' := snd (Status.handler r w) in
  db w' = db w
  /\ sent w' = sent w ++ [SELECT]
  /\ ((forall j, In j (db w) -> id j <> i) -> answer = Done Status.job_not_found)
  /\ (forall j, In j (db w) -> id j = i ->
      exists view,
        answer = Done (json_response 200 view)
        /\ get_prop "job_id" view = Some (JStr (id j))
        /\ get_prop "status" view = Some (JStr (status_name (status j)))
        /\ (has_prop "result" view = true
            <-> status j = completed /\ truthy (result j) = true)
        /\ (has_prop "result" view = true ->
            get_prop "result" view = Some (result j))
        /\ (has_prop "error_message" view = true <-> failed_or_dead j)
        /\ (failed_or_dead j ->
            get_prop "error_message" view
            = Some (json_of_opt JStr (error_message j)))
        /\ (has_prop "retry_count" view = true <-> shows_retries j)
        /\ (has_prop "max_retries" view = true <-> shows_retries j)
        /\ (shows_retries j ->
            get_prop "retry_count" view = Some (JNum (retry_count j))
            /\ get_prop "max_retries" view = Some (JNum (max_retries j)))).
Proof.
  intros r w i.
  apply (status_is_a_read_only_view r w i).
  - left. split; reflexivity.
  - discriminate.
  - vm_compute. constructor; [intros [] | constructor].
Defined.

Lemma kr_null_result_then_status :
  reachable (Scenario.table_after Scenario.null_result_then_status).
Proof.
  unfold Scenario.table_after, Scenario.null_result_then_status. cbv zeta.
  unfold bind at 1.
  destruct (Enqueue.handler _ _ _ Scenario.start) as [[a | msg] w1] eqn:E1.
  - assert (H1 : reachable (db w1)).
    { change w1 with (snd (Done a, w1)). rewrite <- E1.
      apply kr_enqueue_handler. apply reachable_empty. }
    unfold bind.
    destruct (Process.handler _ _ _ _ w1) as [[b | msg] w2] eqn:E2.
    + rewrite status_handler_reads_only.
      change w2 with (snd (Done b, w2)). rewrite <- E2.
      now apply kr_process_handler.
    + change w2 with (snd (@Thrown response msg, w2)). rewrite <- E2.
      now apply kr_process_handler.
  - change w1 with (snd (@Thrown response msg, w1)). rewrite <- E1.
    apply kr_enqueue_handler. apply reachable_empty.
Qed.

(** C9, as stated, fails: a job whose external call answered with the JSON
    document [null] is [completed], and the view of it has no result. *)
Lemma completed_job_shown_without_result :
  let t := Scenario.table_after Scenario.null_result_then_status in
  let j := Scenario.first_row t in
  reachable t /\ In j t
  /\ id j = "job-0"
  /\ status j = completed
  /\ exists view,
       Scenario.answer Scenario.null_result_then_status
       = Done (json_response 200 view)
       /\ has_prop "result" view = false
       /\ ~ (has_prop "result" view = true <-> status j = completed).
Proof.
  split; [exact kr_null_result_then_status |].
  vm_compute.
  split; [left; reflexivity |].
  split; [reflexivity |]. split; [reflexivity |].
  eexists. split; [reflexivity |]. split; [reflexivity |].
  intros [_ H]. specialize (H eq_refl). discriminate H.
Qed.

(* ===================================================================== *)
(** * A status request without a job id *)
(* ===================================================================== *)

(** C10, as amended. A status request that carries no job id is answered
    without any statement being sent to the store, the world staying as it
    was. A GET whose URL has no [job_id] parameter, and a POST whose body
    is a JSON value other than [null] with no [job_id], are answered 400
    "job_id is required". A POST whose body is missing, malformed or
    [null] is answered 500 "Internal server error". Both answers differ
    from the 404 "Job not found" given for an id that no job has. *)
Theorem status_requires_job_id (r : Status.request) (w : world) :
  asks_for_nothing r \/ sends_no_readable_body r ->
  snd (Status.handler r w) = w
  /\ (asks_for_nothing r ->
      fst (Status.handler r w) = Done Status.job_id_required)
  /\ (sends_no_readable_body r ->
      fst (Status.handler r w) = Done status_internal_error)
  /\ http_status Status.job_id_required = 400
  /\ body Status.job_id_required = JObj [("error", JStr "job_id is required")]
  /\ http_status status_internal_error = 500
  /\ Status.job_id_required <> Status.job_not_found
  /\ status_internal_error <> Status.job_not_found.
Proof.
  intros Hr.
  assert (H400 : asks_for_nothing r ->
                 Status.handler r w = (Done Status.job_id_required, w)).
  { intros [[Hm Hu] | [Hm Hb]]; unfold Status.handler, try_catch, bind;
      rewrite Hm.
    - rewrite Hu. reflexivity.
    - rewrite Hb. reflexivity. }
  assert (H500 : sends_no_readable_body r ->
                 Status.handler r w = (Done status_internal_error, w)).
  { intros [Hm [message Hb]]. unfold Status.handler, try_catch, bind.
    rewrite Hm, Hb. reflexivity. }
  split; [destruct Hr as [Hr | Hr]; [rewrite (H400 Hr) | rewrite (H500 Hr)];
          reflexivity |].
  split; [intros Hn; now rewrite (H400 Hn) |].
  split; [intros Hn; now rewrite (H500 Hn) |].
  repeat split; discriminate.
Qed.

Lemma status_requires_job_id_witness :
  let r := Scenario.post_status_without_id in
  let w := Scenario.one_completed_job in
  snd (Status.handler r w) = w
  /\ (asks_for_nothing r ->
      fst (Status.handler r w) = Done Status.job_id_required)
  /\ (sends_no_readable_body r ->
      fst (Status.handler r w) = Done status_internal_error)
  /\ http_status Status.job_id_required = 400
  /\ body Status.job_id_required = JObj [("error", JStr "job_id is required")]
  /\ http_status status_internal_error = 500
  /\ Status.job_id_required <> Status.job_not_found
  /\ status_internal_error <> Status.job_not_found.
Proof.
  intros r w.
  apply (status_requires_job_id r w).
  left. right. split; reflexivity.
Defined.

(** C10, as stated, fails: a POST to status with no body carries no job
    id, and it is answered 500 "Internal server error", not the 400 of the
    validation error. *)
Lemma status_post_without_body_is_answered_500 :
  let r := Scenario.post_status_without_body in
  let w := Scenario.one_completed_job in
  Status.method r = POST
  /\ Status.handler r w = (Done status_internal_error, w)
  /\ http_status status_internal_error = 500
  /\ fst (Status.handler r w) <> Done Status.job_id_required.
Proof.
  vm_compute. repeat split. discriminate.
Qed.

(* ===================================================================== *)
(** * Picking a job *)
(* ===================================================================== *)

Lemma oldest_none (rows : list job) : oldest rows = None <-> rows = [].
Proof.
  destruct rows as [| j rest]; simpl; [tauto |].
  destruct (oldest rest) as [k |].
  - destruct (created_at j <=? created_at k); split; discriminate.
  - split; discriminate.
Qed.

Lemma oldest_some (rows : list job) (j : job) :
  oldest rows = Some j ->
  In j rows /\ forall k, In k rows -> created_at j <= created_at k.
Proof.
  revert j. induction rows as [| r rest IH]; simpl; intros j H; [discriminate |].
  destruct (oldest rest) as [k |] eqn:E.
  - destruct (IH k eq_refl) as [Hin Hmin].
    destruct (created_at r <=? created_at k) eqn:Ele; injection H as <-.
    + apply Z.leb_le in Ele. split; [now left |].
      intros k' [<- | Hk']; [lia |]. specialize (Hmin k' Hk'). lia.
    + apply Z.leb_gt in Ele. split; [now right |].
      intros k' [<- | Hk']; [lia |]. now apply Hmin.
  - injection H as <-. apply oldest_none in E. subst rest.
    split; [now left |]. intros k' [<- | []]. lia.
Qed.

Lemma eligible_spec (now : Z) (j : job) :
  Process.eligible now j = true
  <-> (status j = pending \/ status j = failed)
      /\ (forall t, next_retry_at j = Some t -> t <= now)
      /\ locked_at j = None.
Proof.
  unfold Process.eligible. rewrite !andb_true_iff.
  assert (Hs : status_in (status j) [pending; failed] = true
               <-> status j = pending \/ status j = failed).
  { destruct (status j); simpl; split; intros H; auto; try discriminate;
      destruct H; discriminate. }
  rewrite Hs.
  destruct (next_retry_at j) as [t |], (locked_at j) as [l |];
    rewrite ?Z.leb_le; split.
  all: try (intros [[H1 H2] H3]; discriminate).
  all: try (intros [H1 [H2 H3]]; discriminate).
  - intros [[H1 H2] _]. repeat split; auto. now intros t' [= <-].
  - intros [H1 [H2 _]]. repeat split; auto.
  - intros [[H1 _] _]. repeat split; auto. discriminate.
  - intros [H1 _]. repeat split; auto.
Qed.

(** X1. STEP 2 reads the clock once, sends one SELECT and changes
    nothing. It finds no job exactly when no row is eligible; otherwise it
    finds a row of the table that is [pending] or [failed], is not locked,
    has no [next_retry_at] later than the time read, and was created no
    later than any other eligible row. *)
Theorem oldest_eligible_job_is_picked (e : env) (w : world) :
  let now := js_clock e (tick w) in
  exists picked,
    Process.pick_job e w
    = (Done (now, picked),
       {| db := db w; tick := S (tick w); sent := sent w ++ [SELECT] |})
    /\ (picked = None
        <-> forall j, In j (db w) -> Process.eligible now j = false)
    /\ (forall j, picked = Some j ->
        In j (db w)
        /\ (status j = pending \/ status j = failed)
        /\ locked_at j = None
        /\ (forall t, next_retry_at j = Some t -> t <= now)
        /\ (forall k, In k (db w) -> Process.eligible now k = true ->
            created_at j <= created_at k)).
Proof.
  intros now.
  exists (oldest (filter (Process.eligible now) (db w))).
  split; [reflexivity |]. split.
  - rewrite oldest_none. split.
    + intros Hnil j Hin.
      destruct (Process.eligible now j) eqn:E; [| reflexivity].
      assert (Hf : In j (filter (Process.eligible now) (db w)))
        by (apply filter_In; auto).
      rewrite Hnil in Hf. destruct Hf.
    + intros Hall.
      destruct (filter (Process.eligible now) (db w)) as [| j rest] eqn:E;
        [reflexivity |].
      assert (Hf : In j (filter (Process.eligible now) (db w)))
        by (rewrite E; now left).
      apply filter_In in Hf as [Hin He]. rewrite (Hall j Hin) in He.
      discriminate He.
  - intros j Hj. apply oldest_some in Hj as [Hin Hmin].
    apply filter_In in Hin as [Hin He].
    apply eligible_spec in He as (Hs & Hn & Hl).
    repeat split; auto.
    intros k Hk Hke. apply Hmin. apply filter_In. auto.
Qed.

Lemma oldest_eligible_job_fields (e : env) (w : world) (now : Z) (k : job) :
  fst (Process.pick_job e w) = Done (now, Some k) ->
  In k (db w) /\ (forall t, next_retry_at k = Some t -> t <= now).
Proof.
  unfold Process.pick_job, bind, date_now, db_select, ret. simpl.
  intros [= <- Hk]. apply oldest_some in Hk as [Hin _].
  apply filter_In in Hin as [Hin He].
  apply eligible_spec in He as (_ & Hn & _). auto.
Qed.

(** X2. Once a failed run has scheduled a retry for a job, no later
    request picks that job at a time before the retry time, whatever
    instance asks and whatever else is in the table. *)
Theorem failed_job_waits_for_its_retry_time (e e' : env) (j k : job)
  (message : string) (w w' : world) (next now' : Z) :
  retry_count j + 1 < max_retries j ->
  fst (Process.calculateNextRetryTime e (retry_count j + 1) w) = Done (Some next) ->
  db w' = db (snd (Process.job_failed e j message w)) ->
  fst (Process.pick_job e' w') = Done (now', Some k) ->
  id k = id j ->
  next <= now'.
Proof.
  intros Hlt Hnext Hdb Hpick Hid.
  rewrite (job_failed_retry e j message w next Hlt Hnext) in Hdb.
  simpl in Hdb.
  destruct (oldest_eligible_job_fields e' w' now' k Hpick) as (Hin & Hretry).
  rewrite Hdb in Hin. apply in_update_rows in Hin as [r [Hr Hk]].
  assert (Hc : has_id (id j) r = true).
  { destruct (has_id (id j) r) eqn:E; [reflexivity |].
    subst k. apply has_id_eq in Hid. congruence. }
  rewrite Hc in Hk. subst k. apply Hretry. reflexivity.
Qed.

Lemma failed_job_waits_for_its_retry_time_witness : 40000 <= 800000.
Proof.
  pose (e := Scenario.worker "w" Scenario.slow_clock).
  pose (w := Scenario.retryable_job_locked).
  pose (w' := snd (Process.job_failed e Scenario.job_D "API returned status 503" w)).
  apply (failed_job_waits_for_its_retry_time e e Scenario.job_D
           (apply_patch (Process.fail_retry "API returned status 503" 2 40000)
              400000 Scenario.job_D)
           "API returned status 503" w w' 40000 800000).
  - vm_compute. reflexivity.
  - vm_compute. reflexivity.
  - reflexivity.
  - vm_compute. reflexivity.
  - reflexivity.
Defined.

(* ===================================================================== *)
(** * The lock statement as a compare-and-set *)
(* ===================================================================== *)

Lemma update_rows_no_match cond p now (t : table) :
  (forall j, In j t -> cond j = false) -> update_rows cond p now t = t.
Proof.
  intros H. unfold update_rows.
  rewrite <- (map_id t) at 2. apply map_ext_in.
  intros j Hin. now rewrite (H j Hin).
Qed.

Lemma locked_rows_are_not_lockable i now worker db_now (t : table) (j : job) :
  In j (update_rows (Process.lockable i) (Process.lock now worker) db_now t) ->
  Process.lockable i j = false.
Proof.
  intros Hin. apply in_update_rows in Hin as [r [_ ->]].
  destruct (Process.lockable i r) eqn:E; [| exact E].
  unfold Process.lockable. simpl. apply andb_false_r.
Qed.

(** X3. The lock statement is guarded by the status alone. It changes
    nothing in the table when every row with the job's id is in
    [processing], [completed] or [dead_letter]; in particular when it is
    applied to the table exactly as another lock statement for the job left
    it, no statement in between, so that the owner and the time the first
    one wrote stay. And it locks every row with the job's id that is
    [pending] or [failed], whatever that row's [next_retry_at] and whoever
    read the job and when: a lock sent for a job that has failed since it
    was read takes the job over. *)
Theorem lock_is_guarded_by_status_alone (e : env) (now : Z) (j : job)
  (w : world) :
  let after := db (snd (Process.lock_job e now j w)) in
  ((forall r, In r (db w) -> id r = id j ->
      status r = processing \/ status r = completed \/ status r = dead_letter) ->
   after = db w)
  /\ (forall e0 now0 j0 w0,
        id j0 = id j -> db w = db (snd (Process.lock_job e0 now0 j0 w0)) ->
        after = db w)
  /\ (forall r, In r (db w) -> id r = id j ->
      status r = pending \/ status r = failed ->
      In (apply_patch (Process.lock now (WORKER_ID e)) (db_clock e (tick w)) r)
         after).
Proof.
  intros after. subst after.
  unfold Process.lock_job, db_update. simpl. split; [| split].
  - intros Hall. apply update_rows_no_match. intros r Hr.
    unfold Process.lockable.
    destruct (has_id (id j) r) eqn:E; [| reflexivity].
    apply has_id_eq in E.
    destruct (Hall r Hr E) as [H | [H | H]]; rewrite H; reflexivity.
  - intros e0 now0 j0 w0 Hid Hdb.
    apply update_rows_no_match. intros r Hr.
    rewrite Hdb in Hr. unfold Process.lock_job, db_update in Hr. simpl in Hr.
    rewrite Hid in Hr. now apply locked_rows_are_not_lockable in Hr.
  - intros r Hr Hid Hs. apply in_update_rows_intro; [exact Hr |].
    unfold Process.lockable.
    apply has_id_eq in Hid. rewrite Hid.
    destruct Hs as [-> | ->]; reflexivity.
Qed.

(* ===================================================================== *)
(** * What process leaves alone *)
(* ===================================================================== *)

Section Rowwise.

Variable R : job -> job -> Prop.
Hypothesis R_refl : forall j, R j j.
Hypothesis R_trans : forall a b c, R a b -> R b c -> R a c.

Lemma Forall2_same (t : table) : Forall2 R t t.
Proof. induction t; constructor; auto. Qed.

Lemma Forall2_compose (t1 t2 t3 : table) :
  Forall2 R t1 t2 -> Forall2 R t2 t3 -> Forall2 R t1 t3.
Proof.
  intros H12. revert t3.
  induction H12 as [| a b l1 l2 Hab _ IH]; intros t3 H23;
    inversion H23; subst; constructor; eauto.
Qed.

Lemma rw_ret {A} (a : A) : rowwise R (ret a).
Proof. intros w. apply Forall2_same. Qed.

Lemma rw_throw {A} (msg : string) : rowwise R (@throw A msg).
Proof. intros w. apply Forall2_same. Qed.

Lemma rw_date_now e : rowwise R (date_now e).
Proof. intros w. apply Forall2_same. Qed.

Lemma rw_db_select cond : rowwise R (db_select cond).
Proof. intros w. apply Forall2_same. Qed.

Lemma rw_bind {A B} (m : M A) (k : A -> M B) :
  rowwise R m -> (forall a, rowwise R (k a)) -> rowwise R (bind m k).
Proof.
  intros Hm Hk w. unfold bind. specialize (Hm w).
  destruct (m w) as [[a | msg] w1]; simpl in *.
  - eapply Forall2_compose; [exact Hm | apply Hk].
  - exact Hm.
Qed.

Lemma rw_try_catch {A} (m : M A) (h : string -> M A) :
  rowwise R m -> (forall msg, rowwise R (h msg)) -> rowwise R (try_catch m h).
Proof.
  intros Hm Hh w. unfold try_catch. specialize (Hm w).
  destruct (m w) as [[a | msg] w1]; simpl in *.
  - exact Hm.
  - eapply Forall2_compose; [exact Hm | apply Hh].
Qed.

Lemma rw_for_each {A} (xs : list A) (body : A -> M unit) :
  (forall x, In x xs -> rowwise R (body x)) -> rowwise R (for_each xs body).
Proof.
  induction xs as [| x xs IH]; simpl; intros Hb.
  - apply rw_ret.
  - apply rw_bind; [apply Hb; now left | intros _; apply IH].
    intros y Hy. apply Hb. now right.
Qed.

Lemma rw_db_update e cond p :
  (forall j now, cond j = true -> R j (apply_patch p now j)) ->
  rowwise R (db_update e cond p).
Proof.
  intros Hp w. simpl. unfold update_rows.
  induction (db w) as [| j t IH]; simpl; constructor; auto.
  destruct (cond j) eqn:E; auto.
Qed.

Lemma rw_toISOString d : rowwise R (Process.toISOString d).
Proof. destruct d; [apply rw_ret | apply rw_throw]. Qed.

Lemma rw_calculateNextRetryTime e rc :
  rowwise R (Process.calculateNextRetryTime e rc).
Proof.
  unfold Process.calculateNextRetryTime.
  apply rw_bind; [apply rw_date_now | intros; apply rw_ret].
Qed.

(** The release of one stuck job, given that the statements it may send
    relate the rows as [R] asks. *)
Lemma rw_release_stuck_job e s :
  (forall p j now,
     (exists t, p = Process.timeout_dead_letter t)
     \/ (exists rc next, p = Process.timeout_retry rc next) ->
     has_id (Process.s_id s) j = true -> R j (apply_patch p now j)) ->
  rowwise R (Process.release_stuck_job e s).
Proof.
  intros Hp. unfold Process.release_stuck_job.
  destruct (_ >=? _).
  - apply rw_bind; [apply rw_date_now | intros t].
    apply rw_bind; [| intros; apply rw_ret].
    apply rw_db_update. intros j now. apply Hp. left. eauto.
  - apply rw_bind; [apply rw_calculateNextRetryTime | intros d].
    apply rw_bind; [apply rw_toISOString | intros iso].
    apply rw_bind; [| intros; apply rw_ret].
    apply rw_db_update. intros j now. apply Hp. right. eauto.
Qed.

End Rowwise.

Lemma same_submission_refl j : same_submission j j.
Proof. reflexivity. Qed.

Lemma same_submission_trans a b c :
  same_submission a b -> same_submission b c -> same_submission a c.
Proof. unfold same_submission. congruence. Qed.

Lemma apply_patch_same_submission p now j :
  same_submission j (apply_patch p now j).
Proof. reflexivity. Qed.

Ltac rw_sub :=
  repeat first
    [ apply rw_ret; exact same_submission_refl
    | apply rw_throw; exact same_submission_refl
    | apply rw_date_now; exact same_submission_refl
    | apply rw_db_select; exact same_submission_refl
    | apply rw_toISOString; exact same_submission_refl
    | apply rw_calculateNextRetryTime;
        [exact same_submission_refl | exact same_submission_trans]
    | apply rw_db_update;
        [exact same_submission_refl
        | intros; apply apply_patch_same_submission]
    | apply rw_bind; [exact same_submission_trans | | intros ?]
    | apply rw_try_catch; [exact same_submission_trans | | intros ?] ].

Lemma rw_sub_claim e : rowwise same_submission (Process.claim e).
Proof.
  unfold Process.claim, Process.release_stuck_jobs, Process.select_stuck_jobs,
    Process.pick_job, Process.lock_job.
  rw_sub.
  - apply rw_for_each;
      [exact same_submission_refl | exact same_submission_trans |].
    intros s _. apply rw_release_stuck_job;
      [exact same_submission_refl | exact same_submission_trans |].
    intros. apply apply_patch_same_submission.
  - destruct (snd _) as [j |]; rw_sub.
Qed.

Lemma rw_sub_run_job e forceFail reply j :
  rowwise same_submission (Process.run_job e forceFail reply j).
Proof.
  unfold Process.run_job, Process.call_api, Process.job_succeeded,
    Process.job_failed.
  rw_sub.
  - destruct forceFail; rw_sub. destruct reply; rw_sub.
  - destruct (_ >=? _); rw_sub.
Qed.

Lemma rw_sub_handler e m forceFail reply :
  rowwise same_submission (Process.handler e m forceFail reply).
Proof.
  unfold Process.handler.
  destruct m; try (apply rw_ret; exact same_submission_refl);
    (apply rw_try_catch;
     [exact same_submission_trans | | intros; apply rw_ret; exact same_submission_refl]);
    (apply rw_bind; [exact same_submission_trans | apply rw_sub_claim |]);
    intros [r | j];
    [apply rw_ret; exact same_submission_refl | apply rw_sub_run_job
    |apply rw_ret; exact same_submission_refl | apply rw_sub_run_job
    |apply rw_ret; exact same_submission_refl | apply rw_sub_run_job].
Qed.

Lemma Forall2_same_submission_map (t t' : table) :
  Forall2 same_submission t t' -> map submitted t' = map submitted t.
Proof.
  induction 1 as [| a b l l' Hab _ IH]; simpl; [reflexivity |].
  now rewrite Hab, IH.
Qed.

(** X4. A request to process never adds a row, never removes one and never
    changes what a job was submitted with: after it, whatever it answers
    and also when the worker dies before the external call returns, the
    table holds the same jobs in the same order with the same id, user,
    idempotency key, query, max_retries, timeout_seconds and created_at. *)
Theorem process_keeps_every_submission (e : env) (m : http_method)
  (forceFail : bool) (reply : Process.api_reply) (w : world) :
  map submitted (db (snd (Process.handler e m forceFail reply w)))
  = map submitted (db w)
  /\ map submitted (db (snd (Process.claim e w))) = map submitted (db w)
  /\ List.length (db (snd (Process.handler e m forceFail reply w)))
     = List.length (db w).
Proof.
  assert (H : map submitted (db (snd (Process.handler e m forceFail reply w)))
              = map submitted (db w))
    by (apply Forall2_same_submission_map, rw_sub_handler).
  split; [exact H |]. split.
  - apply Forall2_same_submission_map, rw_sub_claim.
  - rewrite <- (length_map submitted), H. apply length_map.
Qed.

Lemma untouched_unless_refl ids j : untouched_unless ids j j.
Proof. split; reflexivity. Qed.

Lemma untouched_unless_trans ids a b c :
  untouched_unless ids a b -> untouched_unless ids b c -> untouched_unless ids a c.
Proof.
  intros [Hab Hab'] [Hbc Hbc']. split; [congruence |].
  intros Hn. rewrite <- (Hab' Hn). apply Hbc'. now rewrite Hab.
Qed.

Lemma unique_row (t : table) (j k : job) :
  NoDup (map id t) -> In j t -> In k t -> id j = id k -> j = k.
Proof.
  induction t as [| r t IH]; simpl; intros Hnd Hj Hk Hid; [contradiction |].
  inversion Hnd as [| ? ? Hr Ht]; subst.
  destruct Hj as [-> | Hj], Hk as [-> | Hk]; auto.
  - exfalso. apply Hr. rewrite Hid. now apply in_map.
  - exfalso. apply Hr. rewrite <- Hid. now apply in_map.
Qed.

Lemma Forall2_impl_In {A B} (R R' : A -> B -> Prop) (l : list A) (l' : list B) :
  (forall a b, In a l -> R a b -> R' a b) -> Forall2 R l l' -> Forall2 R' l l'.
Proof.
  intros H HF. induction HF as [| a b l l' Hab _ IH]; constructor.
  - apply H; [now left | exact Hab].
  - apply IH. intros a' b' Hin. apply H. now right.
Qed.

Lemma rw_release_stuck_jobs_from e (w : world) (stuck : list Process.stuck_row) :
  Forall2 (untouched_unless (map Process.s_id stuck)) (db w)
    (db (snd (for_each stuck (Process.release_stuck_job e) w))).
Proof.
  apply (rw_for_each (untouched_unless (map Process.s_id stuck))
           (untouched_unless_refl _) (untouched_unless_trans _)).
  intros s Hs.
  apply rw_release_stuck_job;
    [apply untouched_unless_refl | apply untouched_unless_trans |].
  intros p j now _ Hid. apply has_id_eq in Hid. split; [reflexivity |].
  intros Hn. exfalso. apply Hn. rewrite Hid. now apply in_map.
Qed.

Lemma release_stuck_jobs_frame (e : env) (w : world) :
  NoDup (map id (db w)) ->
  Forall2
    (fun j j' =>
       id j' = id j
       /\ (Process.is_stuck (js_clock e (tick w) - 600 * 1000) j = false -> j' = j))
    (db w)
    (db (snd (Process.release_stuck_jobs e w))).
Proof.
  intros Hnd. set (threshold := js_clock e (tick w) - 600 * 1000).
  unfold Process.release_stuck_jobs, Process.select_stuck_jobs.
  unfold bind at 1 2. simpl. fold threshold.
  set (stuck := map Process.stuck_of (filter (Process.is_stuck threshold) (db w))).
  set (w1 := {| db := db w; tick := S (tick w); sent := sent w ++ [SELECT] |}).
  change (db w) with (db w1) at 1.
  apply (Forall2_impl_In (untouched_unless (map Process.s_id stuck)));
    [| apply rw_release_stuck_jobs_from].
  intros j j' Hin [Hid Hsame]. split; [exact Hid |].
  intros Hns. apply Hsame. intros Hmem.
  subst stuck. rewrite map_map in Hmem. simpl in Hmem.
  apply in_map_iff in Hmem as [k [Hk Hkin]].
  apply filter_In in Hkin as [Hkin Hks].
  assert (j = k) by (apply (unique_row (db w)); auto).
  subst k. congruence.
Qed.

(** X5. On a table whose ids are unique, releasing the stuck jobs changes
    no other job: every row that is not in [processing], or that was locked
    less than 600 s before the time read, is afterwards exactly as it was,
    and the rows that were stuck are still there under the same id;
    whether or not the release runs to its end. *)
Theorem reaper_leaves_other_jobs_alone (e : env) (w : world) :
  NoDup (map id (db w)) ->
  let threshold := js_clock e (tick w) - 600 * 1000 in
  Forall2
    (fun j j' => id j' = id j /\ (Process.is_stuck threshold j = false -> j' = j))
    (db w)
    (db (snd (Process.release_stuck_jobs e w))).
Proof.
  intros Hnd threshold. subst threshold.
  now apply release_stuck_jobs_frame.
Qed.

Lemma reaper_leaves_other_jobs_alone_witness :
  let e := Scenario.worker "w" Scenario.late_clock in
  let w := Scenario.two_locked_jobs in
  let threshold := js_clock e (tick w) - 600 * 1000 in
  Forall2
    (fun j j' => id j' = id j /\ (Process.is_stuck threshold j = false -> j' = j))
    (db w)
    (db (snd (Process.release_stuck_jobs e w))).
Proof.
  intros e w.
  apply (reaper_leaves_other_jobs_alone e w).
  vm_compute.
  constructor; [intros [H | []]; discriminate H |].
  constructor; [intros [] | constructor].
Defined.

(* ===================================================================== *)
(** * Running a claimed job *)
(* ===================================================================== *)

Lemma updated_row cond p now (t : table) (r' : job) :
  In r' (update_rows cond p now t) ->
  (exists r, In r t /\ cond r = true /\ r' = apply_patch p now r)
  \/ (In r' t /\ cond r' = false).
Proof.
  intros Hin. apply in_update_rows in Hin as [r [Hr ->]].
  destruct (cond r) eqn:E; [left; eauto | right; auto].
Qed.

Lemma storable_text_app (a b : string) :
  storable_text a = true -> storable_text b = true ->
  storable_text (a ++ b)%string = true.
Proof.
  intros Ha Hb. remember (String.length a) as n eqn:Hn.
  revert a Hn Ha. induction n as [n IH] using lt_wf_ind. intros a Hn Ha.
  assert (Hrec : forall rest,
            (String.length rest < n)%nat -> storable_text rest = true ->
            storable_text (rest ++ b)%string = true)
    by (intros rest Hlt Hrest; now apply (IH (String.length rest))).
  destruct a as [| c1 a]; [exact Hb |].
  cbn [storable_text append] in Ha |- *.
  destruct (between 1 127 c1);
    [apply Hrec; [subst n; simpl; lia | exact Ha] |].
  destruct a as [| c2 a]; [discriminate Ha |].
  cbn [storable_text append] in Ha |- *.
  destruct (between 194 223 c1).
  { apply andb_true_iff in Ha as [-> Ha]. simpl.
    apply Hrec; [subst n; simpl; lia | exact Ha]. }
  destruct a as [| c3 a]; [discriminate Ha |].
  cbn [storable_text append] in Ha |- *.
  destruct (between 224 239 c1).
  { apply andb_true_iff in Ha as [-> Ha]. simpl.
    apply Hrec; [subst n; simpl; lia | exact Ha]. }
  destruct a as [| c4 a]; [discriminate Ha |].
  cbn [storable_text append] in Ha |- *.
  apply andb_true_iff in Ha as [-> Ha]. simpl.
  apply Hrec; [subst n; simpl; lia | exact Ha].
Qed.

Lemma storable_text_decimal (n : Z) :
  storable_text (NilZero.string_of_int (Z.to_int n)) = true.
Proof.
  assert (Hu : forall d, storable_text (NilEmpty.string_of_uint d) = true)
    by (induction d; simpl; auto).
  assert (Hz : forall d, storable_text (NilZero.string_of_uint d) = true)
    by (intros d; destruct d; simpl; auto; apply Hu).
  unfold NilZero.string_of_int. destruct (Z.to_int n); simpl; auto.
Qed.

Ltac accept_patch Hclock Hnext Hint Hreply :=
  unfold accepted_patch; simpl;
  repeat apply conj; intros ? Heq; try discriminate Heq;
  injection Heq as <-;
  first
    [ exact Hint | apply Hclock; lia | exact Hreply | reflexivity
    | eapply Hnext; [| eassumption]; lia
    | simpl; apply storable_text_decimal ].

(** X6. STEPs 3 to 5 on a claimed job, when what they write is something
    the store accepts (well-formed text without U+0000 in the API's answer
    and in the error's message, a retry_count within INTEGER, times the
    store can hold), end
    in one of two ways. Either the handler's code throws, which happens
    only when the retry time is not a valid Date, and then the table is as
    it was (the job stays locked). Or one UPDATE that the store accepts has
    been applied to the rows with the job's id, and every such row is out
    of [processing] with both lock fields cleared; it is [completed],
    holding the API's answer as its result, exactly when the call was not
    forced to fail and the API answered ok. *)
Theorem run_ends_with_the_lock_released (e : env) (forceFail : bool)
  (reply : Process.api_reply) (j : job) (w : world) :
  run_is_storable e reply j w ->
  let after := Process.run_job e forceFail reply j w in
  match fst after with
  | Thrown message =>
      message = "Invalid time value" /\ db (snd after) = db w
  | Done _ =>
      (exists p db_now,
         db (snd after) = update_rows (has_id (id j)) p db_now (db w)
         /\ accepted_patch p)
      /\ forall r, In r (db (snd after)) -> id r = id j ->
           released r
           /\ (status r = completed
               <-> forceFail = false
                   /\ exists apiResult, reply = Process.ApiOk apiResult)
           /\ (forall apiResult, reply = Process.ApiOk apiResult ->
               forceFail = false -> result r = apiResult)
  end.
Proof.
  intros (Hclock & Hnext & Hint & Hreply).
  unfold Process.run_job, Process.call_api, Process.job_succeeded,
    Process.job_failed, Process.calculateNextRetryTime, Process.toISOString,
    try_catch, bind, date_now, db_update, ret, throw.
  destruct forceFail, reply as [res | code | msg]; simpl;
    try (destruct (retry_count j + 1 >=? max_retries j); simpl);
    try (match goal with
         | |- context [Process.new_Date ?t] =>
             destruct (Process.new_Date t) eqn:Hdate
         end; simpl);
    try (split; reflexivity);
    (split;
     [ do 2 eexists; split; [reflexivity |];
       accept_patch Hclock Hnext Hint Hreply
     | intros r Hin Hid;
       apply updated_row in Hin as [[r0 [_ [_ ->]]] | [_ Hc]];
       try (apply has_id_eq in Hid; congruence);
       unfold released; simpl;
       (split; [repeat split; auto |]);
       (split; [split; [intros H; try discriminate H; split; eauto
                       | intros [H1 [x H2]]; try discriminate; reflexivity]
               | intros x Hx Hf; try discriminate; congruence]) ]).
Qed.

Lemma run_ends_with_the_lock_released_witness :
  let e := Scenario.worker "w" Scenario.fast_clock in
  let reply := Process.ApiNotOk 503 in
  let j := Scenario.job_D in
  let w := Scenario.retryable_job_locked in
  let after := Process.run_job e false reply j w in
  match fst after with
  | Thrown message =>
      message = "Invalid time value" /\ db (snd after) = db w
  | Done _ =>
      (exists p db_now,
         db (snd after) = update_rows (has_id (id j)) p db_now (db w)
         /\ accepted_patch p)
      /\ forall r, In r (db (snd after)) -> id r = id j ->
           released r
           /\ (status r = completed
               <-> false = false
                   /\ exists apiResult, reply = Process.ApiOk apiResult)
           /\ (forall apiResult, reply = Process.ApiOk apiResult ->
               false = false -> result r = apiResult)
  end.
Proof.
  intros e reply j w.
  apply (run_ends_with_the_lock_released e false reply j w).
  unfold run_is_storable, storable_time, int4.
  split; [| split; [| split; [| exact I]]].
  - intros n Hn. change (tick w) with 0%nat in Hn.
    assert (Hc : n = 0%nat \/ n = 1%nat) by lia.
    destruct Hc as [-> | ->]; vm_compute; split; [discriminate | reflexivity
                                                 | discriminate | reflexivity].
  - intros n next Hn. change (tick w) with 0%nat in Hn.
    assert (Hc : n = 0%nat \/ n = 1%nat) by lia.
    destruct Hc as [-> | ->]; intros H; vm_compute in H;
      injection H as <-; lia.
  - vm_compute. split; [discriminate | reflexivity].
Defined.



(* ===================================================================== *)
(** * Submitting *)
(* ===================================================================== *)

(** X8. A submission without a query (absent, null or the empty string)
    is answered 400 "Query is required", and a request whose body cannot
    be read is answered 500 with the error's message as details; in both
    cases nothing is sent to the store and the world is unchanged. *)
Theorem enqueue_rejects_without_touching_the_store (e : env)
  (request : parsed Enqueue.submission) (w : world) :
  (forall s, request = Parsed s -> truthy_str (Enqueue.sub_query s) = false) ->
  snd (Enqueue.handler e POST request w) = w
  /\ (forall s, request = Parsed s ->
      fst (Enqueue.handler e POST request w)
      = Done (json_response 400 [("error", JStr "Query is required")]))
  /\ (forall details, request = Rejected details ->
      fst (Enqueue.handler e POST request w)
      = Done (json_response 500
                [("error", JStr "Internal server error");
                 ("details", JStr details)])).
Proof.
  intros Hq. unfold Enqueue.handler, try_catch, bind.
  destruct request as [details | s]; simpl.
  - split; [reflexivity |].
    split; [intros s H; discriminate H | intros d [= <-]; reflexivity].
  - rewrite (Hq s eq_refl). simpl.
    split; [reflexivity |].
    split; [intros; reflexivity | intros d H; discriminate H].
Qed.

Lemma enqueue_rejects_without_touching_the_store_witness :
  let e := Scenario.worker "w" Scenario.fast_clock in
  let request := Parsed {| Enqueue.sub_query := Some "";
                           Enqueue.sub_user_id := Some "u-1" |} in
  let w := Scenario.one_submitted_job in
  snd (Enqueue.handler e POST request w) = w
  /\ (forall s, request = Parsed s ->
      fst (Enqueue.handler e POST request w)
      = Done (json_response 400 [("error", JStr "Query is required")]))
  /\ (forall details, request = Rejected details ->
      fst (Enqueue.handler e POST request w)
      = Done (json_response 500
                [("error", JStr "Internal server error");
                 ("details", JStr details)])).
Proof.
  intros e request w.
  apply (enqueue_rejects_without_touching_the_store e request w).
  intros s [= <-]. reflexivity.
Defined.

(** ** The idempotency key *)

Lemma append_cancel_l (p a b : string) : (p ++ a = p ++ b)%string -> a = b.
Proof.
  induction p as [| c p IH]; simpl; intros H; [exact H |].
  injection H as H. now apply IH.
Qed.

Lemma no_colon_split (u1 u2 q1 q2 : string) :
  no_colon u1 = true -> no_colon u2 = true ->
  (u1 ++ ":" ++ q1 = u2 ++ ":" ++ q2)%string ->
  u1 = u2 /\ q1 = q2.
Proof.
  revert u2. induction u1 as [| c u1 IH]; intros [| d u2] H1 H2 H; simpl in *.
  - injection H as H. auto.
  - injection H as Hc _. subst d. discriminate H2.
  - injection H as Hc _. subst c. discriminate H1.
  - injection H as Hc H. subst d.
    apply andb_true_iff in H1 as [_ H1]. apply andb_true_iff in H2 as [_ H2].
    destruct (IH u2 H1 H2 H) as [-> ->]. auto.
Qed.

(** X9. Two submissions get the same idempotency key only when they come
    from the same submitter with the same query, provided each user id has
    no colon in it and is not the word "anonymous" (as no UUID is). Without
    that proviso keys collide: the user "anonymous" and no user at all,
    or the user "a" asking "b:c" and the user "a:b" asking "c". *)
Theorem idempotency_key_identifies_submission (s1 s2 : Enqueue.submission) :
  plain_user s1 -> plain_user s2 ->
  Enqueue.idempotencyKey s1 = Enqueue.idempotencyKey s2 ->
  (submitter s1 = submitter s2
   /\ text (Enqueue.sub_query s1) = text (Enqueue.sub_query s2))
  /\ Enqueue.idempotencyKey
       {| Enqueue.sub_query := Some "q"; Enqueue.sub_user_id := Some "anonymous" |}
     = Enqueue.idempotencyKey
         {| Enqueue.sub_query := Some "q"; Enqueue.sub_user_id := None |}
  /\ Enqueue.idempotencyKey
       {| Enqueue.sub_query := Some "b:c"; Enqueue.sub_user_id := Some "a" |}
     = Enqueue.idempotencyKey
         {| Enqueue.sub_query := Some "c"; Enqueue.sub_user_id := Some "a:b" |}.
Proof.
  intros P1 P2 Hk. split; [| split; reflexivity].
  unfold plain_user, submitter, Enqueue.idempotencyKey in *.
  destruct (truthy_str (Enqueue.sub_user_id s1)) eqn:T1,
           (truthy_str (Enqueue.sub_user_id s2)) eqn:T2.
  - destruct (Enqueue.sub_user_id s1) as [u1 |]; [| discriminate T1].
    destruct (Enqueue.sub_user_id s2) as [u2 |]; [| discriminate T2].
    simpl in Hk. destruct P1 as [N1 _], P2 as [N2 _].
    destruct (no_colon_split u1 u2 _ _ N1 N2 Hk) as [-> Hq]. auto.
  - destruct (Enqueue.sub_user_id s1) as [u1 |]; [| discriminate T1].
    simpl in Hk. destruct P1 as [N1 Hne].
    change ("anonymous:" ++ text (Enqueue.sub_query s2))%string
      with ("anonymous" ++ ":" ++ text (Enqueue.sub_query s2))%string in Hk.
    destruct (no_colon_split u1 "anonymous" _ _ N1 eq_refl Hk) as [Hu _].
    contradiction.
  - destruct (Enqueue.sub_user_id s2) as [u2 |]; [| discriminate T2].
    simpl in Hk. destruct P2 as [N2 Hne].
    change ("anonymous:" ++ text (Enqueue.sub_query s1))%string
      with ("anonymous" ++ ":" ++ text (Enqueue.sub_query s1))%string in Hk.
    symmetry in Hk.
    destruct (no_colon_split u2 "anonymous" _ _ N2 eq_refl Hk) as [Hu _].
    contradiction.
  - split; [reflexivity |].
    now apply (append_cancel_l "anonymous:").
Qed.

Lemma idempotency_key_identifies_submission_witness :
  let s := {| Enqueue.sub_query := Some "weather in Tokyo";
              Enqueue.sub_user_id := Some "7c9e6679-7425-40de-944b-e07fc1f90ae7" |} in
  (submitter s = submitter s
   /\ text (Enqueue.sub_query s) = text (Enqueue.sub_query s))
  /\ Enqueue.idempotencyKey
       {| Enqueue.sub_query := Some "q"; Enqueue.sub_user_id := Some "anonymous" |}
     = Enqueue.idempotencyKey
         {| Enqueue.sub_query := Some "q"; Enqueue.sub_user_id := None |}
  /\ Enqueue.idempotencyKey
       {| Enqueue.sub_query := Some "b:c"; Enqueue.sub_user_id := Some "a" |}
     = Enqueue.idempotencyKey
         {| Enqueue.sub_query := Some "c"; Enqueue.sub_user_id := Some "a:b" |}.
Proof.
  intros s.
  apply (idempotency_key_identifies_submission s s).
  - vm_compute. split; [reflexivity | discriminate].
  - vm_compute. split; [reflexivity | discriminate].
  - reflexivity.
Defined.

(** ** Deduplication *)

Lemma step_unique_keys t t' :
  step t t' -> NoDup (map idempotency_key t) -> NoDup (map idempotency_key t').
Proof.
  intros [s uuid now t0 t1 Hins | cond p now t0 Hs] Hnd.
  - unfold insert_row in Hins.
    destruct (violates_unique _ t0) eqn:E; [discriminate |].
    injection Hins as <-. rewrite map_app. simpl.
    apply NoDup_snoc; [exact Hnd |].
    intros Hin. apply in_map_iff in Hin as [r [Hk Hr]].
    unfold violates_unique in E.
    assert (Hex : existsb
                    (fun r0 => ((id r0 =? id (Enqueue.new_job s uuid now))%string
                                || (idempotency_key r0
                                    =? idempotency_key (Enqueue.new_job s uuid now))%string))
                    t0 = true).
    { apply existsb_exists. exists r. split; [exact Hr |].
      simpl. simpl in Hk. rewrite Hk, String.eqb_refl. apply orb_true_r. }
    congruence.
  - unfold update_rows. rewrite map_map.
    erewrite map_ext; [exact Hnd |].
    intros j. now destruct (cond j).
Qed.

(** No two jobs hold the same idempotency key, in any state the store can
    reach. *)
Lemma reachable_unique_keys t : reachable t -> NoDup (map idempotency_key t).
Proof.
  induction 1 as [| t t' Hr IH Hstep].
  - constructor.
  - now apply (step_unique_keys t t').
Qed.

Lemma filter_key_none key (t : table) :
  (forall j, In j t -> Enqueue.active_with_key key j = false) ->
  filter (Enqueue.active_with_key key) t = [].
Proof.
  induction t as [| r t IH]; simpl; intros H; [reflexivity |].
  rewrite (H r (or_introl eq_refl)). apply IH. intros j Hj. apply H. now right.
Qed.

Lemma active_with_key_other key (t : table) (j : job) :
  ~ In key (map idempotency_key t) ->
  In j t -> Enqueue.active_with_key key j = false.
Proof.
  intros Hn Hin. unfold Enqueue.active_with_key.
  destruct (idempotency_key j =? key)%string eqn:E; [| reflexivity].
  apply String.eqb_eq in E. exfalso. apply Hn. rewrite <- E. now apply in_map.
Qed.

Lemma filter_key_unique (t : table) (j : job) :
  NoDup (map idempotency_key t) -> In j t ->
  filter (Enqueue.active_with_key (idempotency_key j)) t
  = if status_in (status j) [pending; processing] then [j] else [].
Proof.
  induction t as [| r t IH]; simpl; intros Hnd Hin; [contradiction |].
  inversion Hnd as [| ? ? Hr Ht]; subst.
  destruct Hin as [-> | Hin].
  - unfold Enqueue.active_with_key at 1. rewrite String.eqb_refl. simpl.
    rewrite (filter_key_none (idempotency_key j) t)
      by (intros k Hk; now apply (active_with_key_other _ t)).
    reflexivity.
  - assert (E : Enqueue.active_with_key (idempotency_key j) r = false).
    { unfold Enqueue.active_with_key.
      destruct (idempotency_key r =? idempotency_key j)%string eqn:E;
        [| reflexivity].
      apply String.eqb_eq in E. exfalso. apply Hr. rewrite E. now apply in_map. }
    rewrite E. now apply IH.
Qed.

Lemma violates_unique_key (new : job) (t : table) (j : job) :
  In j t -> idempotency_key j = idempotency_key new ->
  violates_unique new t = true.
Proof.
  intros Hin Hk. unfold violates_unique. apply existsb_exists.
  exists j. split; [exact Hin |].
  rewrite Hk, String.eqb_refl. apply orb_true_r.
Qed.

(** X10. On a table where idempotency keys are unique, a valid submission
    whose key is held by a job that is [pending] or [processing] is
    answered with that job's id and status, and nothing is inserted: one
    SELECT is sent and the table is unchanged. *)
Theorem active_job_is_returned_not_duplicated (e : env)
  (s : Enqueue.submission) (w : world) (j : job) :
  truthy_str (Enqueue.sub_query s) = true ->
  NoDup (map idempotency_key (db w)) ->
  In j (db w) ->
  idempotency_key j = Enqueue.idempotencyKey s ->
  status j = pending \/ status j = processing ->
  Enqueue.handler e POST (Parsed s) w
  = (Done (json_response 200
             [("job_id", JStr (id j));
              ("message", JStr "Job already exists");
              ("status", JStr (status_name (status j)))]),
     {| db := db w; tick := tick w; sent := sent w ++ [SELECT] |}).
Proof.
  intros Hq Hnd Hin Hk Hs.
  apply enqueue_returns_active_job; [exact Hq |].
  rewrite <- Hk, (filter_key_unique (db w) j Hnd Hin).
  destruct Hs as [-> | ->]; reflexivity.
Qed.

Lemma active_job_is_returned_not_duplicated_witness :
  let e := Scenario.worker "w2" Scenario.fast_clock in
  let s := {| Enqueue.sub_query := Some "weather in Tokyo";
              Enqueue.sub_user_id := None |} in
  let w := Scenario.one_submitted_job in
  let j := Scenario.first_row (db w) in
  Enqueue.handler e POST (Parsed s) w
  = (Done (json_response 200
             [("job_id", JStr (id j));
              ("message", JStr "Job already exists");
              ("status", JStr (status_name (status j)))]),
     {| db := db w; tick := tick w; sent := sent w ++ [SELECT] |}).
Proof.
  intros e s w j.
  apply (active_job_is_returned_not_duplicated e s w j).
  - reflexivity.
  - vm_compute. constructor; [intros [] | constructor].
  - vm_compute. left. reflexivity.
  - reflexivity.
  - left. reflexivity.
Defined.

(** X11. On a table where idempotency keys are unique, a valid submission
    whose key is held by a job that is [completed], [failed] or
    [dead_letter] creates nothing: the lookup finds no active job, the
    INSERT is sent, the store rejects it because the key is taken, and the
    answer is 500 "Failed to create job". The table is unchanged. *)
Theorem used_key_is_refused (e : env) (s : Enqueue.submission) (w : world)
  (j : job) :
  truthy_str (Enqueue.sub_query s) = true ->
  NoDup (map idempotency_key (db w)) ->
  In j (db w) ->
  idempotency_key j = Enqueue.idempotencyKey s ->
  status j = completed \/ status j = failed \/ status j = dead_letter ->
  Enqueue.handler e POST (Parsed s) w
  = (Done (json_response 500
             [("error", JStr "Failed to create job");
              ("details", JStr "duplicate key value violates unique constraint")]),
     {| db := db w; tick := S (tick w); sent := sent w ++ [SELECT; INSERT] |}).
Proof.
  intros Hq Hnd Hin Hk Hs.
  unfold Enqueue.handler, try_catch, bind. simpl.
  rewrite Hq. simpl.
  rewrite <- Hk, (filter_key_unique (db w) j Hnd Hin).
  assert (Hinactive : status_in (status j) [pending; processing] = false)
    by (destruct Hs as [-> | [-> | ->]]; reflexivity).
  rewrite Hinactive. simpl.
  unfold db_insert, insert_row. simpl.
  rewrite (violates_unique_key _ (db w) j Hin) by (simpl; now rewrite Hk).
  simpl. rewrite <- app_assoc. reflexivity.
Qed.

Lemma used_key_is_refused_witness :
  let e := Scenario.worker "w2" Scenario.fast_clock in
  let s := {| Enqueue.sub_query := Some "weather in Tokyo";
              Enqueue.sub_user_id := None |} in
  let w := Scenario.one_completed_job in
  Enqueue.handler e POST (Parsed s) w
  = (Done (json_response 500
             [("error", JStr "Failed to create job");
              ("details", JStr "duplicate key value violates unique constraint")]),
     {| db := db w; tick := S (tick w); sent := sent w ++ [SELECT; INSERT] |}).
Proof.
  intros e s w.
  apply (used_key_is_refused e s w (Scenario.first_row (db w))).
  - reflexivity.
  - vm_compute. constructor; [intros [] | constructor].
  - vm_compute. left. reflexivity.
  - reflexivity.
  - left. reflexivity.
Defined.






(* ===================================================================== *)
(** * From submission to completion *)
(* ===================================================================== *)

(** X14. On an empty table, a valid submission followed by a request to
    process whose external call answers ok, when the values involved are
    ones the store accepts (the row submitted: a user id that is absent or
    a UUID, a query of well-formed text without U+0000, a key that fits
    the index; the API's answer and the worker's id: well-formed text
    without U+0000; the times read: within TIMESTAMPTZ), leaves exactly
    one job: the one
    submitted, [completed], holding the API's answer as result, with
    [completed_at] the time read after the call, no lock, no error and a
    retry_count of 0; the request is answered "Job processed successfully"
    with that job's id. Six statements reach the store: the lookup and the
    INSERT of the submission, the two SELECTs, the lock and the completion;
    the row inserted and the two UPDATEs are accepted by the store. *)
Theorem first_job_runs_to_completion (e e' : env) (s : Enqueue.submission)
  (apiResult : json) (w : world) :
  db w = [] ->
  truthy_str (Enqueue.sub_query s) = true ->
  let j := Enqueue.new_job s (gen_random_uuid e (tick w)) (db_clock e (tick w)) in
  accepted_row j ->
  storable_json apiResult = true ->
  storable_text (WORKER_ID e') = true ->
  storable_time (js_clock e' (2 + tick w)%nat) ->
  storable_time (js_clock e' (5 + tick w)%nat) ->
  let w1 := snd (Enqueue.handler e POST (Parsed s) w) in
  let after := Process.handler e' POST false (Process.ApiOk apiResult) w1 in
  fst after
  = Done (json_response 200
            [("message", JStr "Job processed successfully");
             ("job_id", JStr (id j));
             ("status", JStr "completed")])
  /\ sent (snd after) = sent w ++ [SELECT; INSERT; SELECT; SELECT; UPDATE; UPDATE]
  /\ (exists done,
        db (snd after) = [done]
        /\ submitted done = submitted j
        /\ status done = completed
        /\ result done = apiResult
        /\ completed_at done = Some (js_clock e' (5 + tick w)%nat)
        /\ locked_at done = None /\ locked_by done = None
        /\ error_message done = None
        /\ retry_count done = 0
        /\ accepted_row done)
  /\ accepted_patch
       (Process.lock (js_clock e' (2 + tick w)%nat) (WORKER_ID e'))
  /\ accepted_patch
       (Process.complete apiResult (js_clock e' (5 + tick w)%nat)).
Proof.
  intros Hdb Hq j Hrow Hres Hworker Hlock Hdone w1 after.
  assert (Hfree : violates_unique j (db w) = false) by (now rewrite Hdb).
  destruct (enqueue_inserts_when_key_is_free e s w Hq Hfree) as (_ & Hfirst & _).
  fold j in Hfirst. subst after w1. rewrite Hfirst. cbn [snd]. rewrite Hdb.
  unfold Process.handler, Process.claim, Process.release_stuck_jobs,
    Process.select_stuck_jobs, Process.pick_job, Process.lock_job,
    Process.run_job, Process.call_api, Process.job_succeeded,
    try_catch, bind, date_now, db_select, db_update, ret.
  simpl. unfold has_id, Process.lockable, has_id. simpl.
  rewrite ?String.eqb_refl. simpl.
  split; [reflexivity |].
  split; [now rewrite <- !app_assoc |].
  split; [| split].
  - eexists. split; [reflexivity |]. repeat split; try apply Hrow.
    exact Hres.
  - unfold accepted_patch. simpl.
    repeat apply conj; intros ? Heq; try discriminate Heq;
      injection Heq as <-; assumption.
  - unfold accepted_patch. simpl.
    repeat apply conj; intros ? Heq; try discriminate Heq;
      injection Heq as <-; assumption.
Qed.

Lemma first_job_runs_to_completion_witness :
  let e := Scenario.worker "w" Scenario.fast_clock in
  let e' := Scenario.worker "worker-1" Scenario.fast_clock in
  let s := {| Enqueue.sub_query := Some "weather in Tokyo";
              Enqueue.sub_user_id :=
                Some "7c9e6679-7425-40de-944b-e07fc1f90ae7" |} in
  let apiResult := Scenario.a_result in
  let w := Scenario.start in
  let j := Enqueue.new_job s (gen_random_uuid e (tick w)) (db_clock e (tick w)) in
  let w1 := snd (Enqueue.handler e POST (Parsed s) w) in
  let after := Process.handler e' POST false (Process.ApiOk apiResult) w1 in
  fst after
  = Done (json_response 200
            [("message", JStr "Job processed successfully");
             ("job_id", JStr (id j));
             ("status", JStr "completed")])
  /\ sent (snd after) = sent w ++ [SELECT; INSERT; SELECT; SELECT; UPDATE; UPDATE]
  /\ (exists done,
        db (snd after) = [done]
        /\ submitted done = submitted j
        /\ status done = completed
        /\ result done = apiResult
        /\ completed_at done = Some (js_clock e' (5 + tick w)%nat)
        /\ locked_at done = None /\ locked_by done = None
        /\ error_message done = None
        /\ retry_count done = 0
        /\ accepted_row done)
  /\ accepted_patch
       (Process.lock (js_clock e' (2 + tick w)%nat) (WORKER_ID e'))
  /\ accepted_patch
       (Process.complete apiResult (js_clock e' (5 + tick w)%nat)).
Proof.
  intros e e' s apiResult w.
  apply (first_job_runs_to_completion e e' s apiResult w);
    try reflexivity.
  - unfold accepted_row, int4, indexable.
    repeat apply conj; try reflexivity; try (vm_compute; discriminate).
    apply Nat.leb_le. reflexivity.
  - vm_compute. split; [discriminate | reflexivity].
  - vm_compute. split; [discriminate | reflexivity].
Defined.

(* ===================================================================== *)
(** * One job per request *)
(* ===================================================================== *)

Lemma rw_un_db_update ids e cond p :
  (forall j, cond j = true -> In (id j) ids) ->
  rowwise (untouched_unless ids) (db_update e cond p).
Proof.
  intros Hc. apply rw_db_update; [apply untouched_unless_refl |].
  intros j now Hj. split; [reflexivity |].
  intros Hn. exfalso. apply Hn. now apply Hc.
Qed.

Lemma has_id_in i j : has_id i j = true -> In (id j) [i].
Proof. intros H. apply has_id_eq in H. now left. Qed.

Lemma lockable_in i j : Process.lockable i j = true -> In (id j) [i].
Proof.
  unfold Process.lockable. intros H.
  apply andb_true_iff in H as [H _]. now apply has_id_in.
Qed.

Ltac rw_un i :=
  repeat first
    [ apply rw_ret; apply untouched_unless_refl
    | apply rw_throw; apply untouched_unless_refl
    | apply rw_date_now; apply untouched_unless_refl
    | apply rw_toISOString; apply untouched_unless_refl
    | apply rw_calculateNextRetryTime;
        [apply untouched_unless_refl | apply untouched_unless_trans]
    | apply (rw_un_db_update [i]); first [exact (has_id_in i) | exact (lockable_in i)]
    | apply rw_bind; [apply untouched_unless_trans | | intros ?]
    | apply rw_try_catch; [apply untouched_unless_trans | | intros ?] ].

Lemma rw_un_run_job e forceFail reply j :
  rowwise (untouched_unless [id j]) (Process.run_job e forceFail reply j).
Proof.
  unfold Process.run_job, Process.call_api, Process.job_succeeded,
    Process.job_failed.
  rw_un (id j).
  - destruct forceFail; rw_un (id j). destruct reply; rw_un (id j).
  - destruct (_ >=? _); rw_un (id j).
Qed.

Lemma rw_un_lock_job e now j :
  rowwise (untouched_unless [id j]) (Process.lock_job e now j).
Proof. unfold Process.lock_job. rw_un (id j). Qed.

Lemma Forall2_chain {A} (R1 R2 R3 : A -> A -> Prop) (l1 l2 l3 : list A) :
  (forall a b c, R1 a b -> R2 b c -> R3 a c) ->
  Forall2 R1 l1 l2 -> Forall2 R2 l2 l3 -> Forall2 R3 l1 l3.
Proof.
  intros H H12. revert l3.
  induction H12 as [| a b l1 l2 Hab _ IH]; intros l3 H23;
    inversion H23; subst; constructor; eauto.
Qed.

(** STEP 2 alone: only the job picked, if any, may differ afterwards. *)
Lemma pick_and_lock_frame (e : env) (w1 : world) :
  let after :=
    bind (Process.pick_job e)
      (fun picked =>
         match snd picked with
         | None => ret (inl Process.no_pending_jobs)
         | Some j =>
             bind (Process.lock_job e (fst picked) j)
               (fun lockError =>
                  match lockError with
                  | Some _ => ret (inl Process.failed_to_lock)
                  | None => ret (inr j)
                  end)
         end) w1 in
  exists picked : option string,
    Forall2
      (fun j j' => id j' = id j /\ (Some (id j) <> picked -> j' = j))
      (db w1) (db (snd after))
    /\ (forall j, fst after = Done (inr j) -> picked = Some (id j))
    /\ (forall i, picked = Some i ->
        exists j, In j (db w1) /\ id j = i
                  /\ (status j = pending \/ status j = failed)).
Proof.
  unfold bind at 1. unfold Process.pick_job at 1.
  unfold bind at 1 2. unfold date_now, db_select, ret at 1. simpl.
  set (now := js_clock e (tick w1)).
  set (w2 := {| db := db w1; tick := S (tick w1); sent := sent w1 ++ [SELECT] |}).
  destruct (oldest (filter (Process.eligible now) (db w1))) as [j |] eqn:Eo.
  - exists (Some (id j)).
    assert (Hj : In j (db w1) /\ (status j = pending \/ status j = failed)).
    { apply oldest_some in Eo as [Hin _].
      apply filter_In in Hin as [Hin He].
      apply eligible_spec in He as (Hs & _). auto. }
    assert (Hlock := rw_un_lock_job e now j w2).
    unfold bind.
    destruct (Process.lock_job e now j w2) as [[[msg |] | msg] w3] eqn:El;
      simpl in *;
      (split;
       [ apply (Forall2_impl_In (untouched_unless [id j])); [| exact Hlock];
         intros a b _ [Hid Hsame]; split; [exact Hid |];
         intros Hne; apply Hsame; intros [H | []]; congruence
       | split;
         [ intros k Hk; try discriminate Hk; now injection Hk as <-
         | intros i [= <-]; exists j; tauto ] ]).
  - exists None. simpl. split; [| split].
    + apply (Forall2_impl_In eq).
      * intros a b _ <-. auto.
      * clear. induction (db w1); constructor; auto.
    + intros k Hk; discriminate Hk.
    + intros i Hi; discriminate Hi.
Qed.

Lemma db_try_catch_ret {A} (m : M A) (f : string -> A) (w : world) :
  db (snd (try_catch m (fun details => ret (f details)) w)) = db (snd (m w)).
Proof. unfold try_catch. destruct (m w) as [[a | msg] w1]; reflexivity. Qed.

Lemma Forall2_eq_refl {A} (R : A -> A -> Prop) (l : list A) :
  (forall a, R a a) -> Forall2 R l l.
Proof. intros H. induction l; constructor; auto. Qed.

Lemma Forall2_In_l {A B} (R : A -> B -> Prop) (l : list A) (l' : list B) :
  Forall2 R l l' -> forall a, In a l -> exists b, In b l' /\ R a b.
Proof.
  induction 1 as [| x y l l' Hxy _ IH]; intros a Ha; [destruct Ha |].
  destruct Ha as [<- | Ha].
  - exists y. split; [now left | exact Hxy].
  - destruct (IH a Ha) as [b [Hb Hab]]. exists b. split; [now right | exact Hab].
Qed.

Lemma Forall2_same_ids (P : job -> job -> Prop) (l l' : table) :
  Forall2 (fun j j' => id j' = id j /\ P j j') l l' -> map id l' = map id l.
Proof.
  induction 1 as [| a b l l' [Hid _] _ IH]; simpl; [reflexivity |].
  now rewrite Hid, IH.
Qed.

Lemma frame_release_only stuck picked (l1 l2 : table) :
  Forall2 (kept_unless_stuck stuck) l1 l2 ->
  Forall2 (kept_unless_either stuck picked) l1 l2.
Proof.
  apply Forall2_impl_In. intros a b _ [Hid Hs]. split; auto.
Qed.

Lemma frame_release_then_pick stuck picked (l1 l2 l3 : table) :
  Forall2 (kept_unless_stuck stuck) l1 l2 ->
  Forall2 (kept_unless_picked picked) l2 l3 ->
  Forall2 (kept_unless_either stuck picked) l1 l3.
Proof.
  apply Forall2_chain. intros a b c [Hab Hab'] [Hbc Hbc'].
  split; [congruence |]. intros Hs Hp.
  rewrite <- (Hab' Hs). apply Hbc'. now rewrite (Hab' Hs).
Qed.

Lemma frame_then_run stuck picked (i : string) (l1 l3 l4 : table) :
  picked = Some i ->
  Forall2 (kept_unless_either stuck picked) l1 l3 ->
  Forall2 (untouched_unless [i]) l3 l4 ->
  Forall2 (kept_unless_either stuck picked) l1 l4.
Proof.
  intros Hp. apply Forall2_chain. intros a b c [Hab Hab'] [Hbc Hbc'].
  split; [congruence |]. intros Hs Hne.
  rewrite <- (Hab' Hs Hne). apply Hbc'.
  rewrite Hab. intros [H | []]. apply Hne. now rewrite Hp, H.
Qed.

(** What follows the preflight test in the handler of process, without its
    outer [try]. *)
Lemma claim_then_run_frame (e : env) (forceFail : bool)
  (reply : Process.api_reply) (w : world) :
  NoDup (map id (db w)) ->
  exists picked : option string,
    Forall2
      (fun j j' =>
         id j' = id j
         /\ (Process.is_stuck (js_clock e (tick w) - 600 * 1000) j = false ->
             Some (id j) <> picked -> j' = j))
      (db w)
      (db (snd (bind (Process.claim e)
                  (fun claimed =>
                     match claimed with
                     | inl early => ret early
                     | inr j => Process.run_job e forceFail reply j
                     end) w)))
    /\ (forall a, In a (db w) -> picked = Some (id a) ->
        status a = processing \/ status a = pending \/ status a = failed).
Proof.
  intros Hnd.
  pose proof (release_stuck_jobs_frame e w Hnd) as Hrel.
  unfold Process.claim. unfold bind at 1 2.
  destruct (Process.release_stuck_jobs e w) as [[u | msg] w1]; simpl in Hrel.
  2: { exists None. simpl. split; [now apply frame_release_only |].
       intros a _ Ha. discriminate Ha. }
  destruct (pick_and_lock_frame e w1) as [picked [Hpl [Hpk Hpj]]].
  cbv zeta in Hpl, Hpk. exists picked.
  assert (Hst : forall a, In a (db w) -> picked = Some (id a) ->
                  status a = processing \/ status a = pending \/ status a = failed).
  { intros a Ha Hp. destruct (Hpj (id a) Hp) as [j [Hj [Hid Hs]]].
    destruct (Forall2_In_l _ _ _ Hrel a Ha) as [b [Hb [Hba Hsame]]].
    match type of Hsame with
    | ?stuck = false -> _ => destruct stuck eqn:Es
    end.
    - apply is_stuck_spec in Es as [Es _]. auto.
    - rewrite (Hsame eq_refl) in Hb.
      assert (Hnd1 : NoDup (map id (db w1))).
      { rewrite (Forall2_same_ids _ _ _ Hrel). exact Hnd. }
      rewrite <- (unique_row (db w1) j a Hnd1 Hj Hb Hid). tauto. }
  split; [| exact Hst]. clear Hst Hpj.
  match goal with
  | |- context [match ?t w1 with _ => _ end] =>
      match type of Hpl with
      | context [snd ?t'] => change (t w1) with t'; destruct t' as [[[early | j] | msg] w3]
      end
  end; simpl in Hpl, Hpk; simpl.
  - now apply (frame_release_then_pick _ _ (db w) (db w1)).
  - apply (frame_then_run _ _ (id j) (db w) (db w3));
      [ now apply Hpk
      | now apply (frame_release_then_pick _ _ (db w) (db w1))
      | apply rw_un_run_job ].
  - now apply (frame_release_then_pick _ _ (db w) (db w1)).
Qed.

(** X15. On a table whose ids are unique, a request to process changes at
    most the jobs that were stuck when it began and one more job, the one
    it picked: every other row is afterwards exactly as it was. *)
Theorem process_changes_stuck_jobs_and_one_more (e : env) (m : http_method)
  (forceFail : bool) (reply : Process.api_reply) (w : world) :
  NoDup (map id (db w)) ->
  let threshold := js_clock e (tick w) - 600 * 1000 in
  exists picked : option string,
    Forall2
      (fun j j' =>
         id j' = id j
         /\ (Process.is_stuck threshold j = false ->
             Some (id j) <> picked -> j' = j))
      (db w)
      (db (snd (Process.handler e m forceFail reply w))).
Proof.
  intros Hnd threshold. subst threshold. unfold Process.handler.
  destruct m;
    try (rewrite db_try_catch_ret;
         destruct (claim_then_run_frame e forceFail reply w Hnd) as [picked [H _]];
         now exists picked).
  exists None. apply Forall2_eq_refl. auto.
Qed.

Lemma process_changes_stuck_jobs_and_one_more_witness :
  let e := Scenario.worker "w" Scenario.late_clock in
  let w := Scenario.two_locked_jobs in
  let threshold := js_clock e (tick w) - 600 * 1000 in
  exists picked : option string,
    Forall2
      (fun j j' =>
         id j' = id j
         /\ (Process.is_stuck threshold j = false ->
             Some (id j) <> picked -> j' = j))
      (db w)
      (db (snd (Process.handler e POST false
                  (Process.ApiOk Scenario.a_result) w))).
Proof.
  intros e w.
  apply (process_changes_stuck_jobs_and_one_more e POST false
           (Process.ApiOk Scenario.a_result) w).
  vm_compute.
  constructor; [intros [H | []]; discriminate H |].
  constructor; [intros [] | constructor].
Defined.

Lemma finished_is_not_stuck threshold (j : job) :
  status j = completed \/ status j = dead_letter ->
  Process.is_stuck threshold j = false.
Proof. unfold Process.is_stuck. intros [-> | ->]; reflexivity. Qed.

Lemma finished_not_picked (a : job) :
  status a = completed \/ status a = dead_letter ->
  status a = processing \/ status a = pending \/ status a = failed ->
  False.
Proof. intros [H | H] [H' | [H' | H']]; congruence. Qed.

(** X16. On a table whose ids are unique, a request to process that runs
    from its start to its end with no other request's statement in
    between changes no job that is [completed] or [dead_letter]: such a job
    is neither released as stuck nor picked, and its row is afterwards
    exactly as it was. This does not extend to requests that interleave:
    the outcome updates filter on the id alone, so a worker that read a job
    before it was finished rewrites the finished row when its own run ends,
    whatever the row's status has become. *)
Theorem finished_jobs_are_never_touched (e : env) (m : http_method)
  (forceFail : bool) (reply : Process.api_reply) (w : world) :
  NoDup (map id (db w)) ->
  Forall2
    (fun j j' => status j = completed \/ status j = dead_letter -> j' = j)
    (db w)
    (db (snd (Process.handler e m forceFail reply w)))
  /\ (forall (stale r : job) (apiResult : json) (message : string) (w0 : world),
        In r (db w0) -> id r = id stale ->
        In (apply_patch
              (Process.complete apiResult (js_clock e (tick w0)))
              (db_clock e (S (tick w0))) r)
           (db (snd (Process.job_succeeded e stale apiResult w0)))
        /\ (max_retries stale <= retry_count stale + 1 ->
            In (apply_patch
                  (Process.fail_dead_letter message (retry_count stale + 1)
                     (js_clock e (tick w0)))
                  (db_clock e (S (tick w0))) r)
               (db (snd (Process.job_failed e stale message w0))))).
Proof.
  intros Hnd. split.
  - unfold Process.handler.
    assert (Hbody :
      Forall2
        (fun j j' => status j = completed \/ status j = dead_letter -> j' = j)
        (db w)
        (db (snd (bind (Process.claim e)
                    (fun claimed =>
                       match claimed with
                       | inl early => ret early
                       | inr j => Process.run_job e forceFail reply j
                       end) w)))).
    { destruct (claim_then_run_frame e forceFail reply w Hnd)
        as [picked [Hframe Hst]].
      revert Hframe. apply Forall2_impl_In.
      intros a b Ha [_ Hsame] Hfin. apply Hsame.
      - now apply finished_is_not_stuck.
      - intros Hp. apply (finished_not_picked a Hfin).
        apply (Hst a Ha). now symmetry. }
    destruct m; try (rewrite db_try_catch_ret; exact Hbody).
    apply Forall2_eq_refl. auto.
  - intros stale r apiResult message w0 Hin Hid. split.
    + unfold Process.job_succeeded, bind, date_now, db_update, ret. simpl.
      apply in_update_rows_intro; [exact Hin | now apply has_id_eq].
    + intros Hle. rewrite (job_failed_dead_letter e stale message w0 Hle).
      simpl. apply in_update_rows_intro; [exact Hin | now apply has_id_eq].
Qed.

Lemma finished_jobs_are_never_touched_witness :
  let e := Scenario.worker "w" Scenario.fast_clock in
  let w := Scenario.one_completed_job in
  Forall2
    (fun j j' => status j = completed \/ status j = dead_letter -> j' = j)
    (db w)
    (db (snd (Process.handler e POST true (Process.ApiOk Scenario.a_result) w)))
  /\ (forall (stale r : job) (apiResult : json) (message : string) (w0 : world),
        In r (db w0) -> id r = id stale ->
        In (apply_patch
              (Process.complete apiResult (js_clock e (tick w0)))
              (db_clock e (S (tick w0))) r)
           (db (snd (Process.job_succeeded e stale apiResult w0)))
        /\ (max_retries stale <= retry_count stale + 1 ->
            In (apply_patch
                  (Process.fail_dead_letter message (retry_count stale + 1)
                     (js_clock e (tick w0)))
                  (db_clock e (S (tick w0))) r)
               (db (snd (Process.job_failed e stale message w0))))).
Proof.
  intros e w.
  apply (finished_jobs_are_never_touched e POST true
           (Process.ApiOk Scenario.a_result) w).
  vm_compute. constructor; [intros [] | constructor].
Defined.

(** X17. A request to enqueue never changes or removes a job: whatever the
    request, the table is afterwards as it was, or as it was with one row
    added at the end, and that row is a [pending] job for the submission
    with retry_count 0, max_retries 3, timeout_seconds 600, no lock, no
    result and no error, under the id and creation time the store drew. *)
Theorem enqueue_only_appends (e : env) (m : http_method)
  (request : parsed Enqueue.submission) (w : world) :
  let t' := db (snd (Enqueue.handler e m request w)) in
  t' = db w
  \/ exists s,
       request = Parsed s
       /\ truthy_str (Enqueue.sub_query s) = true
       /\ t' = db w ++ [Enqueue.new_job s (gen_random_uuid e (tick w))
                          (db_clock e (tick w))].
Proof.
  unfold Enqueue.handler, try_catch, bind.
  destruct m, request as [details | s]; simpl; auto;
    destruct (truthy_str (Enqueue.sub_query s)) eqn:Hq; simpl; auto;
    destruct (single _); simpl; auto;
    unfold db_insert, insert_row; simpl;
    destruct (violates_unique _ (db w)); simpl; auto;
    right; exists s; auto.
Qed.
